(** * concurrent_stl: a reader-writer-locked std::unordered_map

    Shallow embedding of [internal/container_base.h] and of the two versions
    of [concurrent_unordered_map.h], followed by the properties of the
    repository's specification.

    - [std_unordered_map]: the operations of std::unordered_map the wrappers
      call, over a finite map with unique keys;
    - [container_base]: the guarded container and its two access primitives;
    - [unordered_map]: the map derived from [container_base];
    - [standalone]: the map that holds its own container and mutex;
    - [calls]: sequences of calls on one map;
    - [threads]: the locking discipline as an interleaving semantics;
    - [map_threads]: member functions of the map as calls of a thread;
    - [workers]: the worker threads of the test suite;
    - [move_assignment]: move assignment of the guarded container.

    Between two calls of one thread every lock guard has gone out of scope,
    so the sequential state of a map is its container; the mutex is part of
    the state in [threads], where calls of several threads interleave. *)

From stdpp Require Import gmap strings list fin_maps.

(** ** std::unordered_map

    Keys are unique and compared by [KeyEqual], here equality on [Key];
    [Hash] is the [Countable] instance. [size_type] values are counts of
    stored entries and are kept as [nat].

    The state of a container is the finite map of its entries. Two things
    the entries do not determine are given from outside: the order of
    iteration ([traversal]) and whether [emplace] builds its node before it
    looks the key up ([emplace_policy]). A statement made for every
    [traversal] and every [emplace_policy] holds whatever the standard
    library does there. *)
Module std_unordered_map.

(** [unord.req] on [emplace]: "the element may be constructed even if there
    already is an element in the container with an equivalent key".
    [constructs_first Args args] tells whether, for these arguments, the
    library builds the [value_type] before it looks the key up (libstdc++
    always does) or reads the key off the arguments and looks it up first. *)
Class emplace_policy : Type := {
  constructs_first : ∀ Args : Type, Args → bool
  }.

(** The library that always builds the node first. *)
Definition node_first : emplace_policy := {| constructs_first := λ _ _, true |}.

Section std_unordered_map.
Context {Key : Type} `{Countable Key} {Value : Type}.

Definition pair_type : Type := Key * Value.

(** The order in which a container is iterated from [begin()] to [end()].
    It follows the hash function, the bucket count and the insertions and
    rehashes the container has seen, none of which the entries determine, so
    each container comes with its own; what the standard guarantees is that
    every entry is visited once. Two containers are compared each under its
    own [traversal], and lists taken from one container at different times
    up to order only. *)
Class traversal : Type := {
  in_order : gmap Key Value → list pair_type;
  in_order_entries : ∀ m, in_order m ≡ₚ map_to_list m
  }.

(** Two orders for examples: one and the same listing of the entries taken
    from its front and taken from its back. *)
Definition listed : traversal :=
  {| in_order := map_to_list;
     in_order_entries := λ m, Permutation_refl (map_to_list m) |}.

Definition listed_backwards : traversal :=
  {| in_order := λ m, reverse (map_to_list m);
     in_order_entries := λ m, reverse_Permutation (map_to_list m) |}.

Context {order : traversal} {policy : emplace_policy}.

(** An iterator is either [end()] or designates a stored entry. *)
Definition iterator : Type := option pair_type.

(** What the constructor and the destructor of [value_type] are called
    on during a call. They are recorded for [emplace], the one call that is
    handed constructor arguments instead of a value. *)
Inductive event : Type :=
  | Constructed (p : pair_type)
  | Destroyed (p : pair_type).

Definition find (m : gmap Key Value) (key : Key) : iterator :=
  (λ v, (key, v)) <$> m !! key.

(** [m.insert(obj)]: [(iterator, bool)] and the container afterwards. *)
Definition insert (m : gmap Key Value) (obj : pair_type)
  : (iterator * bool) * gmap Key Value :=
  match m !! obj.1 with
  | Some v => ((Some (obj.1, v), false), m)
  | None => ((Some obj, true), <[obj.1 := obj.2]> m)
  end.

(** [m[key]]: a reference to the slot of [key], which is created with a
    value-initialised [Value] when [key] is absent. The reference is the
    key of the slot. *)
Definition subscript `{Inhabited Value} (m : gmap Key Value) (key : Key)
  : Key * gmap Key Value :=
  match m !! key with
  | Some _ => (key, m)
  | None => (key, <[key := inhabitant]> m)
  end.

(** Assignment through a reference obtained from [subscript]. *)
Definition assign (ref : Key) (value : Value) (m : gmap Key Value)
  : gmap Key Value :=
  alter (λ _, value) ref m.

(** [m.emplace(args...)]: the element stored for an absent key is
    constructed in place from [args]. When the key is already stored nothing
    is inserted, and a library that has built its node before the lookup
    destroys it again. *)
Definition emplace {Args : Type} (construct : Args → pair_type)
    (m : gmap Key Value) (args : Args)
  : ((iterator * bool) * list event) * gmap Key Value :=
  let node := construct args in
  match m !! node.1 with
  | Some v =>
      (((Some (node.1, v), false),
        if constructs_first Args args
        then [Constructed node; Destroyed node] else []), m)
  | None => (((Some node, true), [Constructed node]), <[node.1 := node.2]> m)
  end.

(** [m.erase(key)]: the number of entries removed. *)
Definition erase (m : gmap Key Value) (key : Key) : nat * gmap Key Value :=
  match m !! key with
  | Some _ => (1, delete key m)
  | None => (0, m)
  end.

Definition clear (m : gmap Key Value) : gmap Key Value := ∅.

(** Iteration from [begin()] to [end()]: every entry once, in the
    container's own order. *)
Definition entries (m : gmap Key Value) : list pair_type := in_order m.

Definition size (m : gmap Key Value) : nat := length (entries m).

(** [m.empty()] is [begin() == end()]. *)
Definition empty (m : gmap Key Value) : bool :=
  match entries m with
  | [] => true
  | _ :: _ => false
  end.

Definition count (m : gmap Key Value) (key : Key) : nat :=
  match find m key with
  | Some _ => 1
  | None => 0
  end.

Definition contains (m : gmap Key Value) (key : Key) : bool :=
  match find m key with
  | Some _ => true
  | None => false
  end.
End std_unordered_map.
Arguments pair_type Key Value : clear implicits.
Arguments iterator Key Value : clear implicits.
Arguments event Key Value : clear implicits.
Arguments traversal Key {_ _} Value.
End std_unordered_map.

(** ** internal::container_base<ContainerT, MutexT> *)
Module container_base.

(** What [container_base] asks of [ContainerT]. *)
Class Container (ContainerT : Type) : Type := {
  c_size : ContainerT → nat;
  c_empty : ContainerT → bool
  }.

Record t (ContainerT : Type) : Type := mk { _internal_container : ContainerT }.
Arguments mk {ContainerT} _.
Arguments _internal_container {ContainerT} _.

Section container_base.
Context {ContainerT : Type}.

(** [func] takes [const ContainerT &]: it returns a value and leaves the
    container as it is. *)
Definition execute_shared {R : Type} (func : ContainerT → R) (self : t ContainerT) : R :=
  func (_internal_container self).

(** [func] takes [ContainerT &]: it returns a value and the container as
    it has left it. *)
Definition execute_exclusive {R : Type} (func : ContainerT → R * ContainerT)
    (self : t ContainerT) : R * t ContainerT :=
  let '(r, c) := func (_internal_container self) in (r, mk c).

Definition size `{Container ContainerT} (self : t ContainerT) : nat :=
  execute_shared (λ c, c_size c) self.

Definition empty `{Container ContainerT} (self : t ContainerT) : bool :=
  execute_shared (λ c, c_empty c) self.
End container_base.
End container_base.

#[export] Instance unordered_map_container `{Countable Key} {Value : Type}
    {order : std_unordered_map.traversal Key Value}
  : container_base.Container (gmap Key Value) :=
  {| container_base.c_size := std_unordered_map.size;
   container_base.c_empty := std_unordered_map.empty |}.

(** ** concurrent::unordered_map, derived from container_base *)
Module unordered_map.
Section unordered_map.
Context {Key : Type} `{Countable Key} {Value : Type} `{Inhabited Value}.
Context {order : std_unordered_map.traversal Key Value}.
Context {policy : std_unordered_map.emplace_policy}.

Definition internal_type : Type := gmap Key Value.
Definition pair_type : Type := Key * Value.
Definition t : Type := container_base.t (gmap Key Value).

(** [bool insert(P &&obj)], with [obj] converted to [pair_type]. *)
Definition insert_pair (obj : pair_type) (self : t) : bool * t :=
  container_base.execute_exclusive
    (λ m, let '(r, m') := std_unordered_map.insert m obj in (r.2, m')) self.

(** [void insert(const Key &key, const Value &value)] *)
Definition insert (key : Key) (value : Value) (self : t) : unit * t :=
  container_base.execute_exclusive
    (λ m, let '(ref, m') := std_unordered_map.subscript m key in
          (tt, std_unordered_map.assign ref value m')) self.

(** [void insert(Key &&key, Value &&value)] *)
Definition insert_move (key : Key) (value : Value) (self : t) : unit * t :=
  container_base.execute_exclusive
    (λ m, let '(ref, m') := std_unordered_map.subscript m key in
          (tt, std_unordered_map.assign ref value m')) self.

Definition find (key : Key) (self : t) : option Value :=
  container_base.execute_shared
    (λ m, let it := std_unordered_map.find m key in
          match it with
          | Some p => Some p.2
          | None => None
          end) self.

(** [bool emplace(Args &&...args)]; the events are those of the
    [value_type] built from [args] during the call. *)
Definition emplace {Args : Type} (construct : Args → pair_type) (args : Args)
    (self : t) : (bool * list (std_unordered_map.event Key Value)) * t :=
  container_base.execute_exclusive
    (λ m, let '(r, m') := std_unordered_map.emplace construct m args in
          ((r.1.2, r.2), m')) self.

Definition erase (key : Key) (self : t) : nat * t :=
  container_base.execute_exclusive (λ m, std_unordered_map.erase m key) self.

Definition clear (self : t) : unit * t :=
  container_base.execute_exclusive (λ m, (tt, std_unordered_map.clear m)) self.

Definition size (self : t) : nat := container_base.size self.
Definition empty (self : t) : bool := container_base.empty self.

Definition count (key : Key) (self : t) : nat :=
  container_base.execute_shared (λ m, std_unordered_map.count m key) self.

(** Compiled in from C++20 on. *)
Definition contains (key : Key) (self : t) : bool :=
  container_base.execute_shared (λ m, std_unordered_map.contains m key) self.

Definition snapshot (self : t) : list (Key * Value) :=
  container_base.execute_shared
    (λ m, fold_left (λ data pair, data ++ [(pair.1, pair.2)])
                    (std_unordered_map.entries m) []) self.
End unordered_map.
Arguments internal_type Key {_ _} Value.
Arguments pair_type Key Value : clear implicits.
Arguments t Key {_ _} Value.
End unordered_map.

(** ** concurrent::unordered_map, holding its own container and mutex *)
Module standalone.
Record t (Key : Type) `{Countable Key} (Value : Type) : Type :=
  mk { _internal_map : gmap Key Value }.
Arguments mk {Key _ _ Value} _.
Arguments _internal_map {Key _ _ Value} _.

Section standalone.
Context {Key : Type} `{Countable Key} {Value : Type} `{Inhabited Value}.
Context {order : std_unordered_map.traversal Key Value}.
Context {policy : std_unordered_map.emplace_policy}.

Definition pair_type : Type := Key * Value.

(** [bool insert(P &&obj)], with [obj] converted to [pair_type]. *)
Definition insert_pair (obj : pair_type) (self : t Key Value) : bool * t Key Value :=
  let '(r, m) := std_unordered_map.insert (_internal_map self) obj in
  (r.2, mk m).

(** [void insert(const Key &key, const Value &value)] *)
Definition insert (key : Key) (value : Value) (self : t Key Value)
  : unit * t Key Value :=
  let '(ref, m) := std_unordered_map.subscript (_internal_map self) key in
  (tt, mk (std_unordered_map.assign ref value m)).

(** [void insert(Key &&key, Value &&value)] *)
Definition insert_move (key : Key) (value : Value) (self : t Key Value)
  : unit * t Key Value :=
  let '(ref, m) := std_unordered_map.subscript (_internal_map self) key in
  (tt, mk (std_unordered_map.assign ref value m)).

Definition find (key : Key) (self : t Key Value) : option Value :=
  let it := std_unordered_map.find (_internal_map self) key in
  match it with
  | Some p => Some p.2
  | None => None
  end.

Definition emplace {Args : Type} (construct : Args → pair_type) (args : Args)
    (self : t Key Value)
  : (bool * list (std_unordered_map.event Key Value)) * t Key Value :=
  let '(r, m) := std_unordered_map.emplace construct (_internal_map self) args in
  ((r.1.2, r.2), mk m).

Definition erase (key : Key) (self : t Key Value) : nat * t Key Value :=
  let '(n, m) := std_unordered_map.erase (_internal_map self) key in
  (n, mk m).

Definition clear (self : t Key Value) : unit * t Key Value :=
  (tt, mk (std_unordered_map.clear (_internal_map self))).

Definition size (self : t Key Value) : nat :=
  std_unordered_map.size (_internal_map self).

Definition empty (self : t Key Value) : bool :=
  std_unordered_map.empty (_internal_map self).

Definition count (key : Key) (self : t Key Value) : nat :=
  std_unordered_map.count (_internal_map self) key.

(** Compiled in from C++20 on. *)
Definition contains (key : Key) (self : t Key Value) : bool :=
  std_unordered_map.contains (_internal_map self) key.

Definition snapshot (self : t Key Value) : list (Key * Value) :=
  fold_left (λ data pair, data ++ [(pair.1, pair.2)])
            (std_unordered_map.entries (_internal_map self)) [].

Definition execute_shared {R : Type} (func : gmap Key Value → R)
    (self : t Key Value) : R :=
  func (_internal_map self).

Definition execute_exclusive {R : Type} (func : gmap Key Value → R * gmap Key Value)
    (self : t Key Value) : R * t Key Value :=
  let '(r, m) := func (_internal_map self) in (r, mk m).
End standalone.
Arguments pair_type Key Value : clear implicits.
End standalone.

(** ** Sequences of calls on one map

    The member functions as data, for statements about what a map holds after
    any number of later calls. *)
Module calls.
Section calls.
Context {Key : Type} `{Countable Key} {Value : Type} `{Inhabited Value}.
Context {policy : std_unordered_map.emplace_policy}.
Context {Args : Type} (construct : Args → Key * Value).

Inductive call : Type :=
  | insert_pair (obj : Key * Value)
  | insert (key : Key) (value : Value)
  | insert_move (key : Key) (value : Value)
  | emplace (args : Args)
  | erase (key : Key)
  | clear
  | find (key : Key)
  | count (key : Key)
  | contains (key : Key)
  | size
  | empty
  | snapshot
  | execute_shared
  | execute_exclusive (func : gmap Key Value → gmap Key Value).

(** The map after a call; the [const] member functions leave it as it is. *)
Definition perform (self : unordered_map.t Key Value) (c : call)
  : unordered_map.t Key Value :=
  match c with
  | insert_pair obj => (unordered_map.insert_pair obj self).2
  | insert key value => (unordered_map.insert key value self).2
  | insert_move key value => (unordered_map.insert_move key value self).2
  | emplace args => (unordered_map.emplace construct args self).2
  | erase key => (unordered_map.erase key self).2
  | clear => (unordered_map.clear self).2
  | execute_exclusive func =>
      (container_base.execute_exclusive (λ m, (tt, func m)) self).2
  | find _ | count _ | contains _ | size | empty | snapshot | execute_shared => self
  end.

(** A call is a write to [k] when it is one of the modifying member
    functions and names [k], whether or not it ends up changing the entry;
    [clear] and a callable run by [execute_exclusive] name no key and count
    as writes to every key. *)
Definition writes (k : Key) (c : call) : bool :=
  match c with
  | insert_pair obj => bool_decide (obj.1 = k)
  | insert key _ | insert_move key _ | erase key => bool_decide (key = k)
  | emplace args => bool_decide ((construct args).1 = k)
  | clear | execute_exclusive _ => true
  | find _ | count _ | contains _ | size | empty | snapshot | execute_shared => false
  end.
End calls.
Arguments call Key {_ _} Value Args.
End calls.

(** ** Several threads on one guarded container

    [execute_shared] and [execute_exclusive] as each thread runs them: the
    lock guard is taken, [func] runs on the container one access at a time,
    the guard is released at scope exit. Threads are scheduled one step at a
    time in any order; a thread whose lock cannot be granted has no step. *)
Module threads.
Section threads.
Context {ContainerT R : Type}.

(** A callable taking [const ContainerT &]: it reads the container any
    number of times and returns. *)
Inductive shared_func : Type :=
  | s_return (r : R)
  | s_read (next : ContainerT → shared_func).

(** A callable taking [ContainerT &]: each access reads the container and
    leaves it updated; what was read decides how the callable goes on. *)
Inductive exclusive_func : Type :=
  | x_return (r : R)
  | x_access (update : ContainerT → ContainerT) (next : ContainerT → exclusive_func).

(** The callables run from start to end with nothing in between. *)
Fixpoint run_shared (func : shared_func) (c : ContainerT) : R :=
  match func with
  | s_return r => r
  | s_read next => run_shared (next c) c
  end.

Fixpoint run_exclusive (func : exclusive_func) (c : ContainerT) : R * ContainerT :=
  match func with
  | x_return r => (r, c)
  | x_access update next => run_exclusive (next c) (update c)
  end.

Inductive call : Type :=
  | execute_shared (func : shared_func)
  | execute_exclusive (func : exclusive_func).

(** Where a thread is: between two calls, or inside one, after its guard
    was constructed, with what is left of [func]. *)
Inductive position : Type :=
  | outside
  | in_shared (rest : shared_func)
  | in_exclusive (rest : exclusive_func).

Record thread : Type := mk_thread {
  todo : list call;
  at_ : position;
  returned : list R
}.

(** std::shared_mutex: held by one writer, or by any number of readers, or
    free. *)
Record shared_mutex : Type := mk_mutex {
  writer : bool;
  readers : nat
}.

Record state : Type := mk_state {
  _internal_container : ContainerT;
  _mutex : shared_mutex;
  threads : list thread
}.

(** One step of thread [i]; [None] when the thread does not exist, has
    nothing left to call, or waits for the mutex. *)
Definition step (i : nat) (s : state) : option state :=
  t ← threads s !! i;
  let c := _internal_container s in
  let mu := _mutex s in
  match at_ t with
  | outside =>
      match todo t with
      | [] => None
      | execute_shared func :: rest =>
          (* std::shared_lock<MutexT> lock(_mutex); *)
          if writer mu then None
          else Some (mk_state c (mk_mutex false (S (readers mu)))
                       (<[i := mk_thread rest (in_shared func) (returned t)]> (threads s)))
      | execute_exclusive func :: rest =>
          (* std::unique_lock<MutexT> lock(_mutex); *)
          if writer mu then None
          else match readers mu with
               | 0 => Some (mk_state c (mk_mutex true 0)
                              (<[i := mk_thread rest (in_exclusive func) (returned t)]>
                                 (threads s)))
               | S _ => None
               end
      end
  | in_shared (s_read next) =>
      Some (mk_state c mu
              (<[i := mk_thread (todo t) (in_shared (next c)) (returned t)]> (threads s)))
  | in_shared (s_return r) =>
      (* the guard's destructor: unlock_shared() *)
      Some (mk_state c (mk_mutex (writer mu) (pred (readers mu)))
              (<[i := mk_thread (todo t) outside (returned t ++ [r])]> (threads s)))
  | in_exclusive (x_access update next) =>
      Some (mk_state (update c) mu
              (<[i := mk_thread (todo t) (in_exclusive (next c)) (returned t)]> (threads s)))
  | in_exclusive (x_return r) =>
      (* the guard's destructor: unlock() *)
      Some (mk_state c (mk_mutex false (readers mu))
              (<[i := mk_thread (todo t) outside (returned t ++ [r])]> (threads s)))
  end.

(** An interleaved execution: the scheduler's choices, one thread per step. *)
Fixpoint run (schedule : list nat) (s : state) : option state :=
  match schedule with
  | [] => Some s
  | i :: schedule => s' ← step i s; run schedule s'
  end.

(** Every thread outside a call, the mutex free. *)
Definition start (c : ContainerT) (programs : list (list call)) : state :=
  mk_state c (mk_mutex false 0) ((λ calls, mk_thread calls outside []) <$> programs).

Definition finished (s : state) : bool :=
  forallb (λ t, match at_ t, todo t with
                | outside, [] => true
                | _, _ => false
                end) (threads s).

(** A serial execution: thread [i] makes its next call on the guarded
    container, from the lock to the unlock, while no other thread runs. *)
Definition serial_call (i : nat) (s : container_base.t ContainerT * list thread)
  : option (container_base.t ContainerT * list thread) :=
  t ← s.2 !! i;
  match at_ t, todo t with
  | outside, execute_shared func :: rest =>
      let r := container_base.execute_shared (run_shared func) s.1 in
      Some (s.1, <[i := mk_thread rest outside (returned t ++ [r])]> s.2)
  | outside, execute_exclusive func :: rest =>
      let '(r, self) := container_base.execute_exclusive (run_exclusive func) s.1 in
      Some (self, <[i := mk_thread rest outside (returned t ++ [r])]> s.2)
  | _, _ => None
  end.

Fixpoint serial (order : list nat) (s : container_base.t ContainerT * list thread)
  : option (container_base.t ContainerT * list thread) :=
  match order with
  | [] => Some s
  | i :: order => s' ← serial_call i s; serial order s'
  end.

(** While a thread is inside [execute_exclusive], every other thread is
    outside any call. *)
Definition exclusive_alone (s : state) : Prop :=
  ∀ i j t t' rest,
    threads s !! i = Some t → at_ t = in_exclusive rest →
    threads s !! j = Some t' → j ≠ i → at_ t' = outside.

(** *** The serial execution an interleaved one stands for

    Each call takes its place in the serial order when its lock is granted.
    [settle] is a thread with the call it is inside of carried through to
    its return, [settled_container] the container once the writer inside
    has returned. *)
Definition settle (c : ContainerT) (t : thread) : thread :=
  match at_ t with
  | outside => t
  | in_shared rest => mk_thread (todo t) outside (returned t ++ [run_shared rest c])
  | in_exclusive rest =>
      mk_thread (todo t) outside (returned t ++ [(run_exclusive rest c).1])
  end.

Definition settled_container (c : ContainerT) (ts : list thread) : ContainerT :=
  foldr (λ t acc, match at_ t with
                  | in_exclusive rest => (run_exclusive rest c).2
                  | _ => acc
                  end) c ts.

Definition holds_shared (t : thread) : nat :=
  match at_ t with in_shared _ => 1 | _ => 0 end.

Definition holds_exclusive (t : thread) : nat :=
  match at_ t with in_exclusive _ => 1 | _ => 0 end.

(** The mutex records who is inside. *)
Definition mutex_agrees (s : state) : Prop :=
  readers (_mutex s) = sum_list_with holds_shared (threads s)
  ∧ (if writer (_mutex s) then 1 else 0) = sum_list_with holds_exclusive (threads s)
  ∧ (writer (_mutex s) = true → readers (_mutex s) = 0).

(** The serial state an interleaved state stands for. *)
Definition settled (s : state) : container_base.t ContainerT * list thread :=
  (container_base.mk (settled_container (_internal_container s) (threads s)),
   settle (_internal_container s) <$> threads s).
End threads.
Arguments holds_shared {ContainerT R} !t /.
Arguments holds_exclusive {ContainerT R} !t /.
Arguments settle {ContainerT R} c !t /.
Arguments shared_func ContainerT R : clear implicits.
Arguments exclusive_func ContainerT R : clear implicits.
Arguments call ContainerT R : clear implicits.
Arguments position ContainerT R : clear implicits.
Arguments thread ContainerT R : clear implicits.
Arguments state ContainerT R : clear implicits.
End threads.

(** ** The member functions of the map as calls of a thread *)
Module map_threads.
Section map_threads.
Context {Key : Type} `{Countable Key} {Value : Type} `{Inhabited Value}.

(** What a member function hands back to its caller. *)
Inductive result : Type :=
  | r_void
  | r_size (n : nat)
  | r_optional (o : option Value).

(** [m[key] = value]: [operator[]], then the assignment through the
    reference it returned. *)
Definition insert_func (key : Key) (value : Value)
  : threads.exclusive_func (gmap Key Value) result :=
  threads.x_access (λ m, (std_unordered_map.subscript m key).2)
    (λ m, threads.x_access
            (std_unordered_map.assign (std_unordered_map.subscript m key).1 value)
            (λ _, threads.x_return r_void)).

Definition insert (key : Key) (value : Value) : threads.call (gmap Key Value) result :=
  threads.execute_exclusive (insert_func key value).

Definition erase_func (key : Key) : threads.exclusive_func (gmap Key Value) result :=
  threads.x_access (λ m, (std_unordered_map.erase m key).2)
    (λ m, threads.x_return (r_size (std_unordered_map.erase m key).1)).

Definition erase (key : Key) : threads.call (gmap Key Value) result :=
  threads.execute_exclusive (erase_func key).

Definition find_func (key : Key) : threads.shared_func (gmap Key Value) result :=
  threads.s_read
    (λ m, let it := std_unordered_map.find m key in
          threads.s_return
            (r_optional match it with
                        | Some p => Some p.2
                        | None => None
                        end)).

Definition find (key : Key) : threads.call (gmap Key Value) result :=
  threads.execute_shared (find_func key).
End map_threads.
Arguments result Value : clear implicits.
End map_threads.

(** Three threads on a map of [int] to [int]: two that insert and look up,
    one that looks up. *)
Definition three_threads : list (list (threads.call (gmap nat nat) (map_threads.result nat))) :=
  [ [map_threads.insert 0 0; map_threads.insert 1 10];
    [map_threads.insert 100 1000; map_threads.find 0];
    [map_threads.find 100] ].

(** The first thread inserts, then the second; the lookups of the second and
    the third thread overlap; the first thread inserts again. *)
Definition three_threads_schedule : list nat :=
  [0; 0; 0; 0; 1; 1; 1; 1; 1; 2; 1; 2; 2; 1; 0; 0; 0; 0].

Definition three_threads_end : threads.state (gmap nat nat) (map_threads.result nat) :=
  threads.mk_state
    (list_to_map [(0, 0); (1, 10); (100, 1000)])
    (threads.mk_mutex false 0)
    [ threads.mk_thread [] threads.outside [map_threads.r_void; map_threads.r_void];
      threads.mk_thread [] threads.outside
        [map_threads.r_void; map_threads.r_optional (Some 0)];
      threads.mk_thread [] threads.outside [map_threads.r_optional (Some 1000)] ].

(** ** The workers of the test suite

    What [insert_worker], [read_worker], [mixed_op_worker] and
    [execute_worker] of [tests/test_unordered_map.cpp] call on the shared
    map, one list of calls per thread. *)
Module workers.
Section workers.
Context {Key : Type} `{Countable Key} {Value : Type} `{Inhabited Value}.

Inductive op : Type :=
  | do_insert (key : Key) (value : Value)
  | do_find (key : Key)
  | do_erase (key : Key)
  | do_count (key : Key).

(** [execute_worker] reads with a callable that calls [count(key)] and
    returns nothing. *)
Definition count_func (key : Key)
  : threads.shared_func (gmap Key Value) (map_threads.result Value) :=
  threads.s_read (λ m, let _ := std_unordered_map.count m key in
                       threads.s_return map_threads.r_void).

(** The call of a thread; the callable [execute_worker] writes with is the
    body of [insert(key, value)]. *)
Definition to_call (o : op) : threads.call (gmap Key Value) (map_threads.result Value) :=
  match o with
  | do_insert key value => map_threads.insert key value
  | do_find key => map_threads.find key
  | do_erase key => map_threads.erase key
  | do_count key => threads.execute_shared (count_func key)
  end.

(** The same call made on the map by a single caller. *)
Definition perform (self : unordered_map.t Key Value) (o : op)
  : unordered_map.t Key Value :=
  match o with
  | do_insert key value => (unordered_map.insert key value self).2
  | do_erase key => (unordered_map.erase key self).2
  | do_find _ | do_count _ => self
  end.

Definition programs (ws : list (list op))
  : list (list (threads.call (gmap Key Value) (map_threads.result Value))) :=
  (λ ops : list op, to_call <$> ops) <$> ws.

(** A thread between two calls that has the calls [ops] left. *)
Definition has_left (t : threads.thread (gmap Key Value) (map_threads.result Value))
    (ops : list op) : Prop :=
  threads.at_ t = threads.outside ∧ threads.todo t = to_call <$> ops.
End workers.
Arguments op Key Value : clear implicits.

(** Keys, values and thread ids are [int]s; they are kept as [nat], which is
    exact as long as the numbers computed fit an [int]. *)
Definition fits_int (n : nat) : bool := (Z.of_nat n <? 2 ^ 31)%Z.

(** [for (i = 0; i < count; ++i) map.insert(start + i, (start + i) * 10)] *)
Definition insert_worker (start count : nat) : list (op nat nat) :=
  (λ i, let key := start + i in do_insert key (key * 10)) <$> seq 0 count.

(** One [insert_worker] per thread, thread [i] from [i * items_per_thread]. *)
Definition test_multi_threaded_insert (num_threads items_per_thread : nat)
  : list (list (op nat nat)) :=
  (λ i, insert_worker (i * items_per_thread) items_per_thread) <$> seq 0 num_threads.

(** [for (int key : keys_to_find) map.find(key)] *)
Definition read_worker (keys_to_find : list nat) : list (op nat nat) :=
  do_find <$> keys_to_find.

(** [for (i = 0; i < num_items; ++i) map.insert(i, i * 10)], by the main
    thread before the readers start. *)
Definition populated (num_items : nat) : unordered_map.t nat nat :=
  fold_left perform (insert_worker 0 num_items) (container_base.mk ∅).

(** [thread_keys[i % num_threads].push_back(keys_to_find_all[i])] for every
    index [i]. *)
Definition distribute (num_threads : nat) (keys_to_find_all : list nat)
  : list (list nat) :=
  fold_left
    (λ thread_keys ik, alter (λ keys, keys ++ [ik.2]) (ik.1 mod num_threads) thread_keys)
    (imap pair keys_to_find_all) (replicate num_threads []).

(** The keys of the populated map and 100 keys that are not in it, dealt
    out to one [read_worker] per thread. *)
Definition test_multi_threaded_read (num_items num_threads : nat)
  : list (list (op nat nat)) :=
  read_worker <$> distribute num_threads (seq 0 num_items ++ seq num_items 100).

(** [found_count]: a reader adds one for each [find] that has a value. *)
Definition found (r : map_threads.result nat) : nat :=
  match r with
  | map_threads.r_optional (Some _) => 1
  | _ => 0
  end.

Definition found_count (s : threads.state (gmap nat nat) (map_threads.result nat))
  : nat :=
  sum_list_with (λ t, sum_list_with found (threads.returned t)) (threads.threads s).

(** One iteration per pair of values taken from [rand()], the first for the
    key, the second for the kind of call; [num_ops] is the number of
    iterations. *)
Definition mixed_op_worker (thread_id : nat) (rands : list (nat * nat))
  : list (op nat nat) :=
  let num_ops := length rands in
  (λ rand, let key := rand.1 mod (num_ops * 4) in
           let op_type := rand.2 mod 3 in
           match op_type with
           | 0 => do_insert key (key * 10 + thread_id)
           | 1 => do_find key
           | _ => do_erase key
           end) <$> rands.

(** One [mixed_op_worker] per thread, thread [i] with [thread_id] [i]. *)
Definition test_multi_threaded_mixed_ops (rands : list (list (nat * nat)))
  : list (list (op nat nat)) :=
  imap mixed_op_worker rands.

(** One iteration per value taken from [rand()]. *)
Definition execute_worker (thread_id : nat) (is_exclusive : bool) (rands : list nat)
  : list (op nat nat) :=
  let num_ops := length rands in
  (λ rand, let key := rand mod (num_ops * 2) in
           if is_exclusive then do_insert key (key * 100 + thread_id)
           else do_count key) <$> rands.

(** The first half of the threads write, the second half read. *)
Definition test_multi_threaded_execute (writers readers : list (list nat))
  : list (list (op nat nat)) :=
  imap (λ i, execute_worker i true) writers
  ++ imap (λ i, execute_worker (length writers + i) false) readers.
End workers.

(** ** What a call returns on a given container *)
Section run_call.
Context {ContainerT R : Type}.

Definition is_shared (call : threads.call ContainerT R) : bool :=
  match call with
  | threads.execute_shared _ => true
  | threads.execute_exclusive _ => false
  end.

Definition run_call (c : ContainerT) (call : threads.call ContainerT R) : R :=
  match call with
  | threads.execute_shared func => threads.run_shared func c
  | threads.execute_exclusive func => (threads.run_exclusive func c).1
  end.

(** Everything a thread has returned and, on a container that stays [c],
    is going to return. *)
Definition returns_on (c : ContainerT) (t : threads.thread ContainerT R) : list R :=
  threads.returned t
  ++ match threads.at_ t with
     | threads.outside => []
     | threads.in_shared rest => [threads.run_shared rest c]
     | threads.in_exclusive rest => [(threads.run_exclusive rest c).1]
     end
  ++ (run_call c <$> threads.todo t).

Definition reading (t : threads.thread ContainerT R) : Prop :=
  (∀ rest, threads.at_ t ≠ threads.in_exclusive rest)
  ∧ forallb is_shared (threads.todo t) = true.
End run_call.

(** ** Move assignment of container_base

    [operator=(container_base &&other)] as a thread runs it, on objects that
    each have their container and their mutex; an object is named by its
    place in the list of objects. The state [std::move] leaves the donor's
    container in is the container's own business: [moved_from]. *)
Module move_assignment.
Section move_assignment.
Context {ContainerT : Type} (moved_from : ContainerT → ContainerT).

Record object : Type := mk_object {
  _internal_container : ContainerT;
  _mutex : bool  (* held by a std::unique_lock *)
}.

(** Where a thread is inside [operator=]. *)
Inductive position : Type :=
  | at_guard          (* if (this != &other) *)
  | at_self_lock      (* std::unique_lock<MutexT> self_lock(_mutex); *)
  | at_other_lock     (* std::unique_lock<MutexT> other_lock(other._mutex); *)
  | at_assign         (* _internal_container = std::move(other._internal_container); *)
  | at_other_unlock   (* other_lock goes out of scope *)
  | at_self_unlock    (* self_lock goes out of scope *)
  | returned.         (* return *this; *)

Record thread : Type := mk_thread {
  this : nat;
  other : nat;
  at_ : position
}.

Record state : Type := mk_state {
  objects : list object;
  threads : list thread
}.

Definition move_to (t : thread) (p : position) : thread :=
  mk_thread (this t) (other t) p.

(** One step of thread [i]; [None] when the thread does not exist, has
    returned, names an object that does not exist, or waits for a mutex. *)
Definition step (i : nat) (s : state) : option state :=
  t ← threads s !! i;
  match at_ t with
  | at_guard =>
      if decide (this t = other t)
      then Some (mk_state (objects s) (<[i := move_to t returned]> (threads s)))
      else Some (mk_state (objects s) (<[i := move_to t at_self_lock]> (threads s)))
  | at_self_lock =>
      o ← objects s !! this t;
      if _mutex o then None
      else Some (mk_state
                   (<[this t := mk_object (_internal_container o) true]> (objects s))
                   (<[i := move_to t at_other_lock]> (threads s)))
  | at_other_lock =>
      o ← objects s !! other t;
      if _mutex o then None
      else Some (mk_state
                   (<[other t := mk_object (_internal_container o) true]> (objects s))
                   (<[i := move_to t at_assign]> (threads s)))
  | at_assign =>
      self ← objects s !! this t;
      donor ← objects s !! other t;
      Some (mk_state
              (<[other t := mk_object (moved_from (_internal_container donor))
                                      (_mutex donor)]>
                 (<[this t := mk_object (_internal_container donor) (_mutex self)]>
                    (objects s)))
              (<[i := move_to t at_other_unlock]> (threads s)))
  | at_other_unlock =>
      o ← objects s !! other t;
      Some (mk_state
              (<[other t := mk_object (_internal_container o) false]> (objects s))
              (<[i := move_to t at_self_unlock]> (threads s)))
  | at_self_unlock =>
      o ← objects s !! this t;
      Some (mk_state
              (<[this t := mk_object (_internal_container o) false]> (objects s))
              (<[i := move_to t returned]> (threads s)))
  | returned => None
  end.

Fixpoint run (schedule : list nat) (s : state) : option state :=
  match schedule with
  | [] => Some s
  | i :: schedule => s' ← step i s; run schedule s'
  end.

(** [a = std::move(b)], about to be called. *)
Definition assign (a b : nat) : thread := mk_thread a b at_guard.
End move_assignment.
Arguments object ContainerT : clear implicits.
Arguments state ContainerT : clear implicits.
End move_assignment.

(** ** The two versions side by side *)
Section versions.
Context {Key : Type} `{Countable Key} {Value : Type}.

(** A derived map and a standalone map hold the same entries. *)
Definition same_contents (derived : unordered_map.t Key Value)
    (alone : standalone.t Key Value) : Prop :=
  container_base._internal_container derived = standalone._internal_map alone.

(** Two calls returned the same and left the same entries. *)
Definition same_outcome {A : Type} (derived : A * unordered_map.t Key Value)
    (alone : A * standalone.t Key Value) : Prop :=
  derived.1 = alone.1 ∧ same_contents derived.2 alone.2.
End versions.

(** ** The maps of the test suite *)
Section test_maps.
Context {policy : std_unordered_map.emplace_policy}.
Open Scope string_scope.

(** [test_single_threaded_emplace]: a map of [int] to [(string, int)] after
    [emplace(1, make_pair("one", 11))]. *)
Definition emplace_test_map : unordered_map.t nat (string * nat) :=
  (unordered_map.emplace id (1, ("one", 11)) (container_base.mk ∅)).2.

(** [test_single_threaded_snapshot]: a map of [int] to [string] after the
    three calls of [insert]. *)
Definition snapshot_test_map : unordered_map.t nat string :=
  let map := container_base.mk ∅ in
  let map := (unordered_map.insert 1 "one" map).2 in
  let map := (unordered_map.insert 2 "two" map).2 in
  (unordered_map.insert 3 "three" map).2.
End test_maps.

(** * Properties *)

(** ** The calls of the derived map in terms of its container *)
Section container_view.
Context {Key : Type} `{Countable Key} {Value : Type} `{Inhabited Value}.
Context {order : std_unordered_map.traversal Key Value}.
Context {policy : std_unordered_map.emplace_policy}.
Implicit Types (self : unordered_map.t Key Value) (m : gmap Key Value).
Implicit Types (k key : Key) (v value : Value).

Lemma subscript_then_assign m key value :
  std_unordered_map.assign (std_unordered_map.subscript m key).1 value
    (std_unordered_map.subscript m key).2 = <[key := value]> m.
Proof.
  unfold std_unordered_map.assign, std_unordered_map.subscript.
  destruct (m !! key) as [old|] eqn:Hkey; simpl.
  - apply map_eq; intros j. destruct (decide (key = j)) as [->|Hne].
    + by rewrite lookup_alter_eq, lookup_insert_eq, Hkey.
    + by rewrite lookup_alter_ne, lookup_insert_ne.
  - by rewrite alter_insert_eq.
Qed.

Lemma find_container key self :
  unordered_map.find key self = container_base._internal_container self !! key.
Proof.
  unfold unordered_map.find, container_base.execute_shared, std_unordered_map.find.
  by destruct (_ !! key).
Qed.

Lemma size_entries m : std_unordered_map.size m = size m.
Proof.
  unfold std_unordered_map.size, std_unordered_map.entries.
  by rewrite std_unordered_map.in_order_entries, length_map_to_list.
Qed.

Lemma empty_entries m : std_unordered_map.empty m = true ↔ m = ∅.
Proof.
  unfold std_unordered_map.empty, std_unordered_map.entries.
  pose proof (std_unordered_map.in_order_entries m) as Hperm.
  destruct (std_unordered_map.in_order m) as [|p l].
  - split; [intros _|done].
    apply map_to_list_empty_iff. symmetry in Hperm. by apply Permutation_nil_r.
  - split; [done|intros ->].
    rewrite map_to_list_empty in Hperm. symmetry in Hperm.
    by apply Permutation_nil_cons in Hperm.
Qed.

Lemma size_container self :
  unordered_map.size self = size (container_base._internal_container self).
Proof.
  unfold unordered_map.size, container_base.size, container_base.execute_shared.
  simpl. apply size_entries.
Qed.

Lemma empty_container self :
  unordered_map.empty self = true ↔ container_base._internal_container self = ∅.
Proof.
  unfold unordered_map.empty, container_base.empty, container_base.execute_shared.
  simpl. apply empty_entries.
Qed.

Lemma insert_container key value self :
  unordered_map.insert key value self
  = (tt, container_base.mk (<[key := value]> (container_base._internal_container self))).
Proof.
  unfold unordered_map.insert, container_base.execute_exclusive.
  rewrite <-(subscript_then_assign _ key value).
  by destruct (std_unordered_map.subscript _ key).
Qed.

Lemma insert_move_container key value self :
  unordered_map.insert_move key value self
  = (tt, container_base.mk (<[key := value]> (container_base._internal_container self))).
Proof.
  unfold unordered_map.insert_move, container_base.execute_exclusive.
  rewrite <-(subscript_then_assign _ key value).
  by destruct (std_unordered_map.subscript _ key).
Qed.

Lemma insert_pair_container (obj : Key * Value) self :
  unordered_map.insert_pair obj self
  = match container_base._internal_container self !! obj.1 with
    | Some _ => (false, self)
    | None => (true, container_base.mk
                       (<[obj.1 := obj.2]> (container_base._internal_container self)))
    end.
Proof.
  unfold unordered_map.insert_pair, container_base.execute_exclusive,
    std_unordered_map.insert.
  destruct self as [m]; simpl. by destruct (m !! obj.1).
Qed.

Lemma emplace_container {Args : Type} (construct : Args → Key * Value) args self :
  unordered_map.emplace construct args self
  = let node := construct args in
    match container_base._internal_container self !! node.1 with
    | Some _ =>
        ((false,
          if std_unordered_map.constructs_first Args args
          then [std_unordered_map.Constructed node; std_unordered_map.Destroyed node]
          else []), self)
    | None =>
        ((true, [std_unordered_map.Constructed node]),
         container_base.mk (<[node.1 := node.2]> (container_base._internal_container self)))
    end.
Proof.
  unfold unordered_map.emplace, container_base.execute_exclusive,
    std_unordered_map.emplace.
  destruct self as [m]; simpl. by destruct (m !! (construct args).1).
Qed.

Lemma erase_container key self :
  unordered_map.erase key self
  = match container_base._internal_container self !! key with
    | Some _ => (1, container_base.mk (delete key (container_base._internal_container self)))
    | None => (0, self)
    end.
Proof.
  unfold unordered_map.erase, container_base.execute_exclusive,
    std_unordered_map.erase.
  destruct self as [m]; simpl. by destruct (m !! key).
Qed.

Lemma perform_other {Args : Type} (construct : Args → Key * Value) k v self c :
  calls.writes construct k c = false →
  unordered_map.find k self = Some v →
  unordered_map.find k (calls.perform construct self c) = Some v.
Proof.
  intros Hw Hfind. rewrite find_container in Hfind.
  destruct c; simpl in Hw; try discriminate; simpl; rewrite ?find_container;
    try done; apply bool_decide_eq_false in Hw.
  - rewrite insert_pair_container. destruct (_ !! obj.1); simpl; [done|].
    by rewrite lookup_insert_ne.
  - rewrite insert_container; simpl. by rewrite lookup_insert_ne.
  - rewrite insert_move_container; simpl. by rewrite lookup_insert_ne.
  - rewrite emplace_container; simpl. destruct (_ !! (construct args).1); simpl; [done|].
    by rewrite lookup_insert_ne.
  - rewrite erase_container. destruct (_ !! key); simpl; [|done].
    by rewrite lookup_delete_ne.
Qed.

(** C1. After [insert(key, value)], in its copy and its move overload,
    [find(key)] returns exactly [value], and it still does after any number
    of later calls none of which is a write to [key]. *)
Theorem insert_find_round_trip {Args : Type} (construct : Args → Key * Value)
    self key value (later : list (calls.call Key Value Args))
    (Hlater : forallb (λ c, negb (calls.writes construct key c)) later = true) :
  unordered_map.find key
    (fold_left (calls.perform construct) later (unordered_map.insert key value self).2)
  = Some value
  ∧ unordered_map.find key
      (fold_left (calls.perform construct) later (unordered_map.insert_move key value self).2)
    = Some value.
Proof.
  assert (Hkeep : ∀ s, unordered_map.find key s = Some value →
            unordered_map.find key (fold_left (calls.perform construct) later s)
            = Some value).
  { induction later as [|c later IH]; intros s Hs; simpl; [done|].
    simpl in Hlater. apply andb_prop in Hlater as [Hc Hrest].
    apply IH; [done|]. apply perform_other; [|done].
    by apply negb_true_iff. }
  split; apply Hkeep.
  - rewrite insert_container, find_container; simpl. apply lookup_insert_eq.
  - rewrite insert_move_container, find_container; simpl. apply lookup_insert_eq.
Qed.

(** C2. [insert(obj)] with [obj] a pair of key [k]: when [k] is absent it
    returns true and afterwards [k] maps to the pair's value, every other key
    is as before and there is one entry more; when [k] is present it returns
    false and the map is the one before the call. *)
Theorem insert_pair_if_absent self (obj : Key * Value) :
  let '(inserted, self') := unordered_map.insert_pair obj self in
  match unordered_map.find obj.1 self with
  | None =>
      inserted = true
      ∧ unordered_map.find obj.1 self' = Some obj.2
      ∧ (∀ k, k ≠ obj.1 → unordered_map.find k self' = unordered_map.find k self)
      ∧ unordered_map.size self' = S (unordered_map.size self)
  | Some _ => inserted = false ∧ self' = self
  end.
Proof.
  rewrite insert_pair_container, find_container.
  destruct (_ !! obj.1) eqn:Hk; [done|].
  rewrite !size_container, !find_container; simpl.
  split_and!; [done|apply lookup_insert_eq| |by apply map_size_insert_None].
  intros k Hne. rewrite !find_container; simpl. by apply lookup_insert_ne.
Qed.
End container_view.

(** ** Erasing, querying and copying *)
Section queries.
Context {Key : Type} `{Countable Key} {Value : Type} `{Inhabited Value}.
Context {order : std_unordered_map.traversal Key Value}.
Context {policy : std_unordered_map.emplace_policy}.
Implicit Types (self : unordered_map.t Key Value) (m : gmap Key Value).
Implicit Types (k key : Key) (v value : Value).

Lemma count_container key self :
  unordered_map.count key self
  = match container_base._internal_container self !! key with
    | Some _ => 1
    | None => 0
    end.
Proof.
  unfold unordered_map.count, container_base.execute_shared,
    std_unordered_map.count, std_unordered_map.find.
  by destruct (_ !! key).
Qed.

Lemma contains_container key self :
  unordered_map.contains key self
  = match container_base._internal_container self !! key with
    | Some _ => true
    | None => false
    end.
Proof.
  unfold unordered_map.contains, container_base.execute_shared,
    std_unordered_map.contains, std_unordered_map.find.
  by destruct (_ !! key).
Qed.

Lemma push_back_all (l acc : list (Key * Value)) :
  fold_left (λ data pair, data ++ [(pair.1, pair.2)]) l acc = acc ++ l.
Proof.
  revert acc. induction l as [|[k v] l IH]; intros acc; simpl.
  - by rewrite app_nil_r.
  - by rewrite IH, <-app_assoc.
Qed.

Lemma snapshot_container self :
  unordered_map.snapshot self ≡ₚ map_to_list (container_base._internal_container self).
Proof.
  unfold unordered_map.snapshot, container_base.execute_shared.
  rewrite push_back_all. apply std_unordered_map.in_order_entries.
Qed.

Lemma snapshot_elem_of k v self :
  (k, v) ∈ unordered_map.snapshot self
  ↔ container_base._internal_container self !! k = Some v.
Proof. by rewrite snapshot_container, elem_of_map_to_list. Qed.

(** C4. [erase(key)] returns 1 and removes the entry when [key] is present,
    leaving every other key as it was and one entry fewer; it returns 0 and
    leaves the map and [size()] as they were when [key] is absent; a second
    [erase(key)] returns 0 and leaves the map the first one produced. *)
Theorem erase_idempotent key self :
  let '(removed, self') := unordered_map.erase key self in
  match unordered_map.find key self with
  | Some _ =>
      removed = 1
      ∧ unordered_map.find key self' = None
      ∧ (∀ k, k ≠ key → unordered_map.find k self' = unordered_map.find k self)
      ∧ S (unordered_map.size self') = unordered_map.size self
  | None =>
      removed = 0 ∧ self' = self ∧ unordered_map.size self' = unordered_map.size self
  end
  ∧ unordered_map.erase key self' = (0, self').
Proof.
  rewrite erase_container, find_container.
  destruct (_ !! key) as [old|] eqn:Hkey.
  - rewrite erase_container; simpl. rewrite lookup_delete_eq.
    split; [|done]. rewrite !size_container, find_container; simpl.
    split_and!; [done|apply lookup_delete_eq| |].
    + intros k Hne. rewrite !find_container; simpl. by apply lookup_delete_ne.
    + rewrite map_size_delete, Hkey.
      assert (size (container_base._internal_container self) ≠ 0); [|lia].
      intros Hz%map_size_empty_inv. by rewrite Hz, lookup_empty in Hkey.
  - by rewrite erase_container, Hkey.
Qed.

(** C6. [find(key)] returns an optional: it holds the stored value when [key]
    is present and is empty when [key] is absent; the entries that
    [snapshot()] lists are exactly the pairs [find] reports. The result type
    has no other case. *)
Theorem find_optional key self :
  unordered_map.find key self = container_base._internal_container self !! key
  ∧ (∀ value, unordered_map.find key self = Some value
              ↔ (key, value) ∈ unordered_map.snapshot self)
  ∧ (unordered_map.find key self = None
     ↔ ∀ value, (key, value) ∉ unordered_map.snapshot self).
Proof.
  rewrite find_container. split_and!; [done| |].
  - intros value. by rewrite snapshot_elem_of.
  - split.
    + intros Hnone value Hin%snapshot_elem_of. congruence.
    + intros Hnot. destruct (_ !! key) as [value|] eqn:Hkey; [|done].
      by destruct (Hnot value); apply snapshot_elem_of.
Qed.

(** C7. [count(key)] is 0 or 1; it is 1 exactly when [find(key)] holds a
    value; [contains(key)] is true exactly when [count(key)] is 1; [empty()]
    is true exactly when [size()] is 0. *)
Theorem queries_agree key self :
  (unordered_map.count key self = 0 ∨ unordered_map.count key self = 1)
  ∧ (unordered_map.count key self = 1 ↔ is_Some (unordered_map.find key self))
  ∧ (unordered_map.contains key self = true ↔ unordered_map.count key self = 1)
  ∧ (unordered_map.empty self = true ↔ unordered_map.size self = 0).
Proof.
  rewrite count_container, contains_container, find_container.
  split_and!.
  - destruct (_ !! key); auto.
  - destruct (_ !! key); [by split; eauto|split; [done|by intros [??]]].
  - by destruct (_ !! key).
  - unfold unordered_map.empty, unordered_map.size, container_base.empty,
      container_base.size, container_base.execute_shared; simpl.
    unfold std_unordered_map.empty, std_unordered_map.size.
    by destruct (std_unordered_map.entries _).
Qed.

(** C10. [size()] after a modifying call: [insert(obj)] and [emplace] add
    one when they return true and nothing when they return false; [erase]
    takes away the count it returns, which is 0 or 1; [insert(key, value)],
    in both overloads, adds one when [key] was absent and nothing when it was
    present. *)
Theorem size_delta {Args : Type} (construct : Args → Key * Value)
    (obj : Key * Value) (args : Args) key value self :
  (let '(inserted, self') := unordered_map.insert_pair obj self in
   unordered_map.size self'
   = unordered_map.size self + (if inserted then 1 else 0))
  ∧ (let '((inserted, _), self') := unordered_map.emplace construct args self in
     unordered_map.size self'
     = unordered_map.size self + (if inserted then 1 else 0))
  ∧ (let '(removed, self') := unordered_map.erase key self in
     unordered_map.size self' + removed = unordered_map.size self
     ∧ (removed = 0 ∨ removed = 1))
  ∧ (let '(_, self') := unordered_map.insert key value self in
     unordered_map.size self'
     = unordered_map.size self
       + (if unordered_map.contains key self then 0 else 1))
  ∧ (let '(_, self') := unordered_map.insert_move key value self in
     unordered_map.size self'
     = unordered_map.size self
       + (if unordered_map.contains key self then 0 else 1)).
Proof.
  rewrite insert_pair_container, emplace_container, erase_container,
    insert_container, insert_move_container, contains_container; simpl.
  rewrite !size_container.
  split_and!.
  - destruct (_ !! obj.1) eqn:Hk; rewrite ?size_container; simpl; [lia|].
    rewrite map_size_insert_None by done. lia.
  - destruct (_ !! (construct args).1) eqn:Hk; rewrite ?size_container; simpl; [lia|].
    rewrite map_size_insert_None by done. lia.
  - destruct (_ !! key) as [old|] eqn:Hk; rewrite ?size_container; simpl.
    + rewrite map_size_delete, Hk. split; [|by right].
      assert (size (container_base._internal_container self) ≠ 0); [|lia].
      intros Hz%map_size_empty_inv. by rewrite Hz, lookup_empty in Hk.
    + split; [lia|by left].
  - simpl. rewrite map_size_insert. destruct (_ !! key); simpl; lia.
  - simpl. rewrite map_size_insert. destruct (_ !! key); simpl; lia.
Qed.

Lemma snapshot_entries self :
  (∀ k v, (k, v) ∈ unordered_map.snapshot self ↔ unordered_map.find k self = Some v)
  ∧ NoDup (unordered_map.snapshot self).*1
  ∧ length (unordered_map.snapshot self) = unordered_map.size self.
Proof.
  split_and!.
  - intros k v. by rewrite find_container, snapshot_elem_of.
  - rewrite snapshot_container. apply NoDup_fst_map_to_list.
  - rewrite snapshot_container, size_container. apply length_map_to_list.
Qed.
End queries.

Section emplace_collision.
Open Scope string_scope.

(** C3, as the specification words it, fails with a standard library that
    builds the node of [emplace] before it looks the key up, as libstdc++
    does: on the map [{1: ("one", 11)}], [emplace(1, ("one_new", 111))]
    returns false and leaves the map as it was, and yet a pair has been
    constructed from the arguments, and destroyed, during the call. *)
Lemma emplace_collision_constructs :
  let map := emplace_test_map (policy := std_unordered_map.node_first) in
  let out :=
    unordered_map.emplace (policy := std_unordered_map.node_first)
      id (1, ("one_new", 111)) map in
  out.1.1 = false
  ∧ out.2 = map
  ∧ out.1.2 = [std_unordered_map.Constructed (1, ("one_new", 111));
               std_unordered_map.Destroyed (1, ("one_new", 111))]
  ∧ out.1.2 ≠ [].
Proof. vm_compute. by split_and!. Qed.

(** C3, amended. Whatever the standard library does, [emplace(args...)]
    returns true exactly when the key [k] of the pair is absent, and then
    the pair constructed from the arguments is the entry of [k] and every
    other key is as before. When [k] is present it returns false and the map
    is the one before the call; the only side effect there can be is that of
    a library that builds its node first: the pair is constructed from the
    arguments and destroyed again. On [{1: ("one", 11)}],
    [emplace(1, ("one_new", 111))] returns false and [find(1)] still yields
    [("one", 11)]. *)
Theorem emplace_non_clobber :
  (∀ (Key : Type) `(Countable Key) (Value Args : Type)
     (policy : std_unordered_map.emplace_policy)
     (construct : Args → Key * Value) (args : Args)
     (self : unordered_map.t Key Value),
     let node := construct args in
     let '((inserted, events), self') := unordered_map.emplace construct args self in
     (inserted = true ↔ unordered_map.find node.1 self = None)
     ∧ match unordered_map.find node.1 self with
       | None =>
           inserted = true
           ∧ unordered_map.find node.1 self' = Some node.2
           ∧ (∀ k, k ≠ node.1 → unordered_map.find k self' = unordered_map.find k self)
           ∧ events = [std_unordered_map.Constructed node]
       | Some _ =>
           inserted = false
           ∧ self' = self
           ∧ events = (if std_unordered_map.constructs_first Args args
                       then [std_unordered_map.Constructed node;
                             std_unordered_map.Destroyed node]
                       else [])
       end)
  ∧ (∀ policy : std_unordered_map.emplace_policy,
       (unordered_map.emplace id (1, ("one_new", 111)) emplace_test_map).1.1 = false
       ∧ unordered_map.find 1
           (unordered_map.emplace id (1, ("one_new", 111)) emplace_test_map).2
         = Some ("one", 11)).
Proof.
  split; [|intros policy; by vm_compute].
  intros Key ?? Value Args policy construct args self. cbv zeta.
  rewrite emplace_container, find_container. cbv zeta.
  destruct (_ !! (construct args).1) eqn:Hk; [by split_and!|].
  split_and!; try done.
  - rewrite find_container; simpl. apply lookup_insert_eq.
  - intros k Hne. rewrite !find_container; simpl. by apply lookup_insert_ne.
Qed.
End emplace_collision.

Section snapshot_copy.
Open Scope string_scope.

(** C5. [snapshot()] returns a vector of copies: it lists exactly the pairs
    [find] reports, no key twice, and has [size()] elements. A vector taken
    before [insert(k, v)] of an absent [k] does not hold [(k, v)] and keeps
    its length, while the map has one entry more. From
    [{1:"one", 2:"two", 3:"three"}] the vector holds those three pairs, and
    after [insert(4, "four")] it still has these three and the map has
    four. *)
Theorem snapshot_isolation :
  (∀ (Key : Type) `(Countable Key) (Value : Type) `(Inhabited Value)
     (order : std_unordered_map.traversal Key Value)
     (self : unordered_map.t Key Value),
     (∀ k v, (k, v) ∈ unordered_map.snapshot self
             ↔ unordered_map.find k self = Some v)
     ∧ NoDup (unordered_map.snapshot self).*1
     ∧ length (unordered_map.snapshot self) = unordered_map.size self
     ∧ (∀ k v, unordered_map.find k self = None →
          let snapshot_vec := unordered_map.snapshot self in
          let self' := (unordered_map.insert k v self).2 in
          ((k, v) ∉ snapshot_vec)
          ∧ (k, v) ∈ unordered_map.snapshot self'
          ∧ unordered_map.size self' = S (length snapshot_vec)))
  ∧ (∀ order : std_unordered_map.traversal nat string,
     let snapshot_vec := unordered_map.snapshot snapshot_test_map in
     let map := (unordered_map.insert 4 "four" snapshot_test_map).2 in
     snapshot_vec ≡ₚ [(1, "one"); (2, "two"); (3, "three")]
     ∧ length snapshot_vec = 3
     ∧ unordered_map.size map = 4
     ∧ length (unordered_map.snapshot map) = 4).
Proof.
  split.
  - intros Key ?? Value ? order self.
    destruct (snapshot_entries self) as (Hin & Hnodup & Hlen).
    split_and!; try done.
    intros k v Hk snapshot_vec self'. subst snapshot_vec self'.
    rewrite Hlen. split_and!.
    + rewrite Hin, Hk. done.
    + apply snapshot_entries. rewrite insert_container, find_container; simpl.
      apply lookup_insert_eq.
    + rewrite insert_container, !size_container; simpl.
      apply map_size_insert_None. by rewrite <-find_container.
  - intros order. cbv zeta. rewrite size_container, !snapshot_container.
    vm_compute. split_and!; try done.
    symmetry. apply (Permutation_cons_append [_; _]).
Qed.
End snapshot_copy.

(** ** Interleaved executions are serial ones *)
Section serializability.
Context {ContainerT R : Type}.
Implicit Types (c : ContainerT) (t : threads.thread ContainerT R).
Implicit Types (ts l : list (threads.thread ContainerT R)).
Implicit Types (s : threads.state ContainerT R).

Lemma thread_split ts i t :
  ts !! i = Some t →
  ∃ l1 l2, ts = l1 ++ t :: l2 ∧ i = length l1
           ∧ ∀ t', <[i := t']> ts = l1 ++ t' :: l2.
Proof.
  intros (l1 & l2 & -> & ->)%list_elem_of_split_length.
  exists l1, l2. split_and!; [done..|]. intros t'.
  by rewrite <-(Nat.add_0_r (length l1)), insert_app_r.
Qed.

Lemma nobody_inside l :
  sum_list_with threads.holds_shared l = 0 →
  sum_list_with threads.holds_exclusive l = 0 →
  Forall (λ t, threads.at_ t = threads.outside) l.
Proof.
  induction l as [|t l IH]; simpl; [constructor|].
  unfold threads.holds_shared at 1, threads.holds_exclusive at 1.
  intros Hs Hx. destruct (threads.at_ t) eqn:Ht; try lia.
  constructor; [done|]. apply IH; lia.
Qed.

Lemma settle_outside c l :
  Forall (λ t, threads.at_ t = threads.outside) l → threads.settle c <$> l = l.
Proof.
  induction 1 as [|t l Ht _ IH]; csimpl; [done|].
  rewrite IH. unfold threads.settle. by rewrite Ht.
Qed.

Lemma settled_container_readers c l :
  sum_list_with threads.holds_exclusive l = 0 → threads.settled_container c l = c.
Proof.
  induction l as [|t l IH]; simpl; [done|].
  unfold threads.holds_exclusive at 1.
  destruct (threads.at_ t) eqn:Ht; try lia; intros; apply IH; lia.
Qed.

Lemma settled_container_writer c l1 t l2 rest :
  threads.at_ t = threads.in_exclusive rest →
  sum_list_with threads.holds_exclusive l1 = 0 →
  threads.settled_container c (l1 ++ t :: l2) = (threads.run_exclusive rest c).2.
Proof.
  intros Ht. induction l1 as [|t1 l1 IH]; simpl.
  - by rewrite Ht.
  - unfold threads.holds_exclusive at 1.
    destruct (threads.at_ t1) eqn:Ht1; try lia; intros; apply IH; lia.
Qed.

(** After a step of one thread the counts of readers and writers inside
    change in that thread's summand only. *)
Local Ltac mutex_agrees_after_step :=
  unfold threads.mutex_agrees; simpl; rewrite !sum_list_with_app; simpl;
  split_and!; [lia|lia|done].

Lemma step_settled i s s' :
  threads.step i s = Some s' → threads.mutex_agrees s →
  threads.mutex_agrees s'
  ∧ (threads.settled s' = threads.settled s ∨ threads.serial_call i (threads.settled s) = Some (threads.settled s')).
Proof.
  intros Hstep (Hr & Hw & Hwr).
  destruct s as [c [w n] ts]; simpl in *.
  unfold threads.step in Hstep; simpl in Hstep.
  destruct (ts !! i) as [t|] eqn:Hi; simpl in Hstep; [|done].
  destruct (thread_split _ _ _ Hi) as (l1 & l2 & -> & -> & Hins).
  rewrite sum_list_with_app in Hr, Hw; simpl in Hr, Hw.
  destruct t as [td pos ret]; simpl in Hstep.
  destruct pos as [|[r|next]|[r|upd next]]; simpl in Hstep, Hr, Hw.
  - destruct td as [|[func|func] rest]; [done| |].
    + destruct w; [done|]. injection Hstep as <-. rewrite Hins.
      assert (sum_list_with threads.holds_exclusive l1 = 0) by lia.
      assert (sum_list_with threads.holds_exclusive l2 = 0) by lia.
      split; [mutex_agrees_after_step|].
      right. unfold threads.settled; simpl.
      rewrite !settled_container_readers
        by (rewrite sum_list_with_app; simpl; lia).
      unfold threads.serial_call; simpl.
      rewrite list_lookup_fmap, list_lookup_middle by done; simpl.
      rewrite <-(length_fmap (threads.settle c) l1) at 1.
      by rewrite !fmap_app, !fmap_cons, <-(Nat.add_0_r (length (_ <$> l1))), insert_app_r.
    + destruct w; [done|]. destruct n; [|done]. injection Hstep as <-. rewrite Hins.
      assert (Forall (λ t, threads.at_ t = threads.outside) l1)
        by (apply nobody_inside; lia).
      assert (Forall (λ t, threads.at_ t = threads.outside) l2)
        by (apply nobody_inside; lia).
      split; [mutex_agrees_after_step|].
      right. unfold threads.settled; simpl.
      rewrite settled_container_readers by (rewrite sum_list_with_app; simpl; lia).
      rewrite (settled_container_writer _ _ _ _ func) by (done || lia).
      unfold threads.serial_call; simpl.
      rewrite list_lookup_fmap, list_lookup_middle by done; simpl.
      unfold container_base.execute_exclusive; simpl.
      destruct (threads.run_exclusive func c) as [r c'] eqn:Hrun; simpl.
      rewrite <-(length_fmap (threads.settle c) l1) at 1.
      rewrite !fmap_app, !fmap_cons, <-(Nat.add_0_r (length (_ <$> l1))), insert_app_r.
      simpl. by rewrite Hrun.
  - destruct w; [lia|]. injection Hstep as <-. rewrite Hins.
    split; [mutex_agrees_after_step|].
    left. unfold threads.settled; simpl.
    rewrite !settled_container_readers by (rewrite sum_list_with_app; simpl; lia).
    by rewrite !fmap_app, !fmap_cons.
  - injection Hstep as <-. rewrite Hins.
    split; [mutex_agrees_after_step|].
    left. unfold threads.settled; simpl.
    destruct w; [lia|].
    rewrite !settled_container_readers by (rewrite sum_list_with_app; simpl; lia).
    by rewrite !fmap_app, !fmap_cons.
  - destruct w; [|lia]. injection Hstep as <-. rewrite Hins.
    assert (Forall (λ t, threads.at_ t = threads.outside) l1)
      by (apply nobody_inside; lia).
    assert (Forall (λ t, threads.at_ t = threads.outside) l2)
      by (apply nobody_inside; lia).
    split; [mutex_agrees_after_step|].
    left. unfold threads.settled; simpl.
    rewrite settled_container_readers by (rewrite sum_list_with_app; simpl; lia).
    rewrite (settled_container_writer _ _ _ _ (threads.x_return r)) by (done || lia).
    by rewrite !fmap_app, !fmap_cons.
  - destruct w; [|lia]. injection Hstep as <-. rewrite Hins.
    assert (Forall (λ t, threads.at_ t = threads.outside) l1)
      by (apply nobody_inside; lia).
    assert (Forall (λ t, threads.at_ t = threads.outside) l2)
      by (apply nobody_inside; lia).
    split; [mutex_agrees_after_step|].
    left. unfold threads.settled; simpl.
    rewrite (settled_container_writer _ _ _ _ (next c)) by (done || lia).
    rewrite (settled_container_writer _ _ _ _ (threads.x_access upd next))
      by (done || lia).
    by rewrite !fmap_app, !fmap_cons, !settle_outside.
Qed.

Lemma run_settled schedule s s' :
  threads.run schedule s = Some s' → threads.mutex_agrees s →
  threads.mutex_agrees s'
  ∧ ∃ order, threads.serial order (threads.settled s) = Some (threads.settled s').
Proof.
  revert s. induction schedule as [|i schedule IH]; intros s; simpl.
  - intros [= ->] Hs. split; [done|]. by exists [].
  - destruct (threads.step i s) as [s1|] eqn:Hstep; simpl; [|done].
    intros Hrun Hs.
    destruct (step_settled _ _ _ Hstep Hs) as [Hs1 Hone].
    destruct (IH _ Hrun Hs1) as [Hs' [order Horder]].
    split; [done|]. destruct Hone as [Heq|Hcall].
    + exists order. by rewrite <-Heq.
    + exists (i :: order). simpl. by rewrite Hcall.
Qed.

Lemma settled_container_outside c l :
  Forall (λ t, threads.at_ t = threads.outside) l → threads.settled_container c l = c.
Proof. induction 1 as [|t l Ht _ IH]; simpl; [done|]. by rewrite Ht. Qed.

Lemma settled_outside s :
  Forall (λ t, threads.at_ t = threads.outside) (threads.threads s) →
  threads.settled s
  = (container_base.mk (threads._internal_container s), threads.threads s).
Proof.
  intros Hout. unfold threads.settled.
  by rewrite settled_container_outside, settle_outside.
Qed.

Lemma start_outside c (programs : list (list (threads.call ContainerT R))) :
  Forall (λ t, threads.at_ t = threads.outside)
    (threads.threads (threads.start c programs)).
Proof. simpl. by apply Forall_fmap, Forall_true. Qed.

Lemma start_agrees c (programs : list (list (threads.call ContainerT R))) :
  threads.mutex_agrees (threads.start c programs).
Proof.
  unfold threads.mutex_agrees; simpl. split_and!; [| |done].
  - induction programs; simpl; [done|]. by f_equal.
  - induction programs; simpl; [done|]. by f_equal.
Qed.

Lemma finished_outside s :
  threads.finished s = true →
  Forall (λ t, threads.at_ t = threads.outside) (threads.threads s).
Proof.
  unfold threads.finished. intros Hfin. apply Forall_forall. intros t Ht.
  rewrite forallb_forall in Hfin. apply list_elem_of_In, Hfin in Ht.
  by destruct (threads.at_ t).
Qed.

Lemma agrees_alone s : threads.mutex_agrees s → threads.exclusive_alone s.
Proof.
  intros (Hr & Hw & Hwr) i j t t' rest Hi Ht Hj Hne.
  destruct (thread_split _ _ _ Hi) as (l1 & l2 & Hts & -> & _).
  rewrite Hts in Hr, Hw, Hj. rewrite sum_list_with_app in Hr, Hw.
  simpl in Hr, Hw. destruct t as [td pos ret]; simpl in Ht; subst pos.
  simpl in Hr, Hw. destruct (threads.writer _); [|lia].
  specialize (Hwr eq_refl).
  assert (Hl1 : Forall (λ t, threads.at_ t = threads.outside) l1)
    by (apply nobody_inside; lia).
  assert (Hl2 : Forall (λ t, threads.at_ t = threads.outside) l2)
    by (apply nobody_inside; lia).
  destruct (decide (j < length l1)) as [Hlt|Hge].
  - rewrite lookup_app_l in Hj by done.
    by apply (proj1 (Forall_lookup _ _) Hl1 j).
  - rewrite lookup_app_r in Hj by lia.
    destruct (j - length l1) as [|k] eqn:Hk; [lia|]. simpl in Hj.
    by apply (proj1 (Forall_lookup _ _) Hl2 k).
Qed.

Lemma unfinished_thread l :
  forallb (λ t, match threads.at_ t, threads.todo t with
                | threads.outside, [] => true
                | _, _ => false
                end) l = false →
  ∃ i t, l !! i = Some t
         ∧ (threads.at_ t ≠ threads.outside ∨ threads.todo t ≠ []).
Proof.
  induction l as [|t l IH]; simpl; [done|].
  intros [Ht|Hl]%andb_false_iff.
  - exists 0, t. split; [done|].
    destruct (threads.at_ t); [|by left..].
    destruct (threads.todo t); [done|by right].
  - destruct (IH Hl) as (i & t' & Hi & Ht'). by exists (S i), t'.
Qed.

Lemma reader_inside l :
  sum_list_with threads.holds_shared l ≠ 0 →
  ∃ i t, l !! i = Some t ∧ threads.at_ t ≠ threads.outside.
Proof.
  induction l as [|t l IH]; simpl; [done|]. intros Hsum.
  destruct t as [td [| |] ret] eqn:Heq; simpl in Hsum.
  - destruct (IH Hsum) as (i & t' & Hi & Ht'). by exists (S i), t'.
  - by exists 0, t; subst t.
  - by exists 0, t; subst t.
Qed.

Lemma writer_inside l :
  sum_list_with threads.holds_exclusive l ≠ 0 →
  ∃ i t, l !! i = Some t ∧ threads.at_ t ≠ threads.outside.
Proof.
  induction l as [|t l IH]; simpl; [done|]. intros Hsum.
  destruct t as [td [| |] ret] eqn:Heq; simpl in Hsum.
  - destruct (IH Hsum) as (i & t' & Hi & Ht'). by exists (S i), t'.
  - by exists 0, t; subst t.
  - by exists 0, t; subst t.
Qed.

Lemma inside_steps i t s :
  threads.threads s !! i = Some t → threads.at_ t ≠ threads.outside →
  ∃ s', threads.step i s = Some s'.
Proof.
  intros Hi Hpos. unfold threads.step. rewrite Hi; simpl.
  destruct (threads.at_ t) as [|[r|next]|[r|upd next]]; [done|eauto..].
Qed.

(** Some thread can always take a step until every thread has returned from
    its last call: the locking discipline never blocks all threads. *)
Lemma progress s :
  threads.mutex_agrees s → threads.finished s = false →
  ∃ i s', threads.step i s = Some s'.
Proof.
  intros (Hr & Hw & Hwr) Hfin.
  destruct (unfinished_thread _ Hfin) as (i & t & Hi & Ht).
  destruct (threads.at_ t) as [| |] eqn:Hpos;
    [|exists i; apply (inside_steps i t); [done|by rewrite Hpos]..].
  destruct Ht as [|Htodo]; [done|].
  destruct (threads.writer (threads._mutex s)) eqn:Hwriter.
  { destruct (writer_inside (threads.threads s)) as (j & t' & Hj & Ht'); [lia|].
    exists j. by apply (inside_steps j t'). }
  destruct (threads.todo t) as [|[func|func] rest] eqn:Hcalls; [done| |].
  - exists i. unfold threads.step. rewrite Hi; simpl.
    rewrite Hpos, Hcalls, Hwriter. eauto.
  - destruct (threads.readers (threads._mutex s)) as [|n] eqn:Hreaders.
    + exists i. unfold threads.step. rewrite Hi; simpl.
      rewrite Hpos, Hcalls, Hwriter, Hreaders. eauto.
    + destruct (reader_inside (threads.threads s)) as (j & t' & Hj & Ht'); [lia|].
      exists j. by apply (inside_steps j t').
Qed.

(** C8. For any number of threads, each with its calls of [execute_shared]
    and [execute_exclusive] on one instance, and any interleaving of their
    steps: while a thread is inside [execute_exclusive] every other thread is
    outside any call; and once every thread has returned from its last call,
    the container and everything the calls returned are exactly those of a
    serial execution, in which the same calls are made one at a time, each
    from its lock to its unlock, in some order that keeps the order of each
    thread. *)
Theorem exclusive_calls_serialize c (programs : list (list (threads.call ContainerT R)))
    schedule s
    (Hrun : threads.run schedule (threads.start c programs) = Some s) :
  threads.exclusive_alone s
  ∧ (threads.finished s = true →
     ∃ order,
       threads.serial order
         (container_base.mk c, threads.threads (threads.start c programs))
       = Some (container_base.mk (threads._internal_container s), threads.threads s)).
Proof.
  destruct (run_settled _ _ _ Hrun (start_agrees c programs)) as [Hs [order Horder]].
  split; [by apply agrees_alone|].
  intros Hfin. exists order.
  rewrite (settled_outside _ (start_outside c programs)) in Horder.
  by rewrite (settled_outside s) in Horder by by apply finished_outside.
Qed.
End serializability.

(** Three threads: the run reaches its end, where every call has returned. *)
Lemma exclusive_calls_serialize_witness :
  threads.run three_threads_schedule (threads.start ∅ three_threads)
  = Some three_threads_end
  ∧ threads.exclusive_alone three_threads_end
  ∧ (threads.finished three_threads_end = true →
     ∃ order,
       threads.serial order
         (container_base.mk ∅, threads.threads (threads.start ∅ three_threads))
       = Some (container_base.mk (threads._internal_container three_threads_end),
               threads.threads three_threads_end)).
Proof.
  assert (Hrun : threads.run three_threads_schedule (threads.start ∅ three_threads)
                 = Some three_threads_end) by (vm_compute; reflexivity).
  split; [exact Hrun|].
  exact (exclusive_calls_serialize ∅ three_threads three_threads_schedule
           three_threads_end Hrun).
Defined.

(** The end of the three threads is a finished state, and a thread that
    asks for the exclusive lock while another one is inside has no step. *)
Lemma three_threads_finish :
  threads.finished three_threads_end = true
  ∧ threads.run [0; 1] (threads.start ∅ three_threads) = None
  ∧ threads.run [0; 2] (threads.start ∅ three_threads) = None.
Proof. by vm_compute. Qed.

(** ** The derived and the standalone version *)


Section both_versions.
Context {Key : Type} `{Countable Key} {Value : Type} `{Inhabited Value}.
Context {policy : std_unordered_map.emplace_policy}.

End both_versions.

Section witnesses.
Open Scope string_scope.
Local Existing Instance std_unordered_map.node_first.

Lemma insert_find_round_trip_witness :
  let later : list (calls.call nat string (nat * string)) :=
    [calls.insert 2 "two"; calls.erase 3; calls.emplace (4, "four");
     calls.find 1; calls.insert_pair (5, "five"); calls.snapshot] in
  forallb (λ c, negb (calls.writes id 1 c)) later = true
  ∧ unordered_map.find 1
      (fold_left (calls.perform id) later
         (unordered_map.insert 1 "one" (container_base.mk ∅)).2)
    = Some "one"
  ∧ unordered_map.find 1
      (fold_left (calls.perform id) later
         (unordered_map.insert_move 1 "one" (container_base.mk ∅)).2)
    = Some "one".
Proof.
  intros later. split; [reflexivity|].
  exact (insert_find_round_trip id (container_base.mk ∅) 1 "one" later eq_refl).
Defined.

End witnesses.

(** ** The calls of a thread and the member functions *)
Section map_threads_run.
Context {Key : Type} `{Countable Key} {Value : Type} `{Inhabited Value}.
Implicit Types (m : gmap Key Value) (key : Key) (value : Value).

Lemma insert_func_run key value m :
  threads.run_exclusive (map_threads.insert_func key value) m
  = (map_threads.r_void,
     container_base._internal_container
       (unordered_map.insert key value (container_base.mk m)).2).
Proof.
  rewrite insert_container; simpl. by rewrite subscript_then_assign.
Qed.

Lemma erase_func_run key m :
  threads.run_exclusive (map_threads.erase_func key) m
  = (map_threads.r_size (unordered_map.erase key (container_base.mk m)).1,
     container_base._internal_container
       (unordered_map.erase key (container_base.mk m)).2).
Proof.
  unfold unordered_map.erase, container_base.execute_exclusive; simpl.
  by destruct (std_unordered_map.erase m key).
Qed.

Lemma find_func_run key m :
  threads.run_shared (map_threads.find_func key) m
  = map_threads.r_optional (unordered_map.find key (container_base.mk m)).
Proof. done. Qed.
End map_threads_run.

(** * Further properties of the map *)

(** ** How the member functions compose *)
Section map_laws.
Context {Key : Type} `{Countable Key} {Value : Type} `{Inhabited Value}.
Context {order : std_unordered_map.traversal Key Value}.
Context {policy : std_unordered_map.emplace_policy}.
Implicit Types (self : unordered_map.t Key Value) (m : gmap Key Value).
Implicit Types (k key : Key) (v value : Value).

Lemma clear_container self :
  unordered_map.clear self = (tt, container_base.mk ∅).
Proof. done. Qed.

Lemma filter_keep_all {A : Type} (P : A → Prop) `{∀ x, Decision (P x)} (l : list A) :
  Forall P l → filter P l = l.
Proof.
  induction 1 as [|x l Hx _ IH]; [done|].
  by rewrite filter_cons_True, IH.
Qed.

Lemma map_to_list_delete_filter m key :
  map_to_list (delete key m) ≡ₚ filter (λ p, p.1 ≠ key) (map_to_list m).
Proof.
  assert (Hkeep : filter (λ p, p.1 ≠ key) (map_to_list (delete key m))
                  = map_to_list (delete key m)).
  { apply filter_keep_all, Forall_forall. intros [k v] Hin%elem_of_map_to_list.
    simpl. intros ->. by rewrite lookup_delete_eq in Hin. }
  destruct (m !! key) as [old|] eqn:Hkey.
  - rewrite <-(map_to_list_delete m key old) by done.
    rewrite filter_cons_False by (simpl; intros Hne; by apply Hne).
    by rewrite Hkeep.
  - rewrite delete_id in Hkeep by done. rewrite delete_id by done.
    by rewrite Hkeep.
Qed.

Lemma inserts_container (l : list (Key * Value)) self :
  container_base._internal_container
    (fold_left (λ map p, (unordered_map.insert p.1 p.2 map).2) l self)
  = fold_left (λ m p, <[p.1 := p.2]> m) l (container_base._internal_container self).
Proof.
  revert self. induction l as [|[k v] l IH]; intros self; simpl; [done|].
  by rewrite IH, insert_container.
Qed.

Lemma fold_insert_other (l : list (Key * Value)) m k :
  k ∉ l.*1 → fold_left (λ m p, <[p.1 := p.2]> m) l m !! k = m !! k.
Proof.
  revert m. induction l as [|[k' v'] l IH]; intros m Hk; simpl; [done|].
  rewrite fmap_cons, not_elem_of_cons in Hk. destruct Hk as [Hne Hk].
  rewrite IH by done. by apply lookup_insert_ne.
Qed.

Lemma fold_insert_dom (l : list (Key * Value)) m :
  dom (fold_left (λ m p, <[p.1 := p.2]> m) l m) = dom m ∪ list_to_set l.*1.
Proof.
  revert m. induction l as [|[k' v'] l IH]; intros m; csimpl.
  - by rewrite (right_id_L ∅ (∪)).
  - rewrite IH, dom_insert_L. apply set_eq. intros x.
    rewrite !elem_of_union, elem_of_singleton. tauto.
Qed.

(** X1. After [clear()] the map holds nothing: [size()] is 0, [empty()] is
    true, [snapshot()] is the empty vector, and for every key [find] is
    empty, [count] is 0, [contains] is false and [erase] returns 0 and
    changes nothing. *)
Theorem clear_leaves_nothing self :
  let self' := (unordered_map.clear self).2 in
  unordered_map.size self' = 0
  ∧ unordered_map.empty self' = true
  ∧ unordered_map.snapshot self' = []
  ∧ ∀ key, unordered_map.find key self' = None
           ∧ unordered_map.count key self' = 0
           ∧ unordered_map.contains key self' = false
           ∧ unordered_map.erase key self' = (0, self').
Proof.
  rewrite clear_container; simpl.
  rewrite size_container; simpl. rewrite map_size_empty.
  split_and!; try done.
  - by apply empty_container.
  - apply Permutation_nil_r. by rewrite snapshot_container.
Qed.

(** X2. [insert(key, value)] touches no other key, and a second
    [insert(key, value')] replaces the value without changing [size()];
    [insert(pair)] and [emplace] with that key return false and leave the
    map, and so the first value, as it is. *)
Theorem insert_overwrites_pair_insert_keeps key value value' self :
  let self' := (unordered_map.insert key value self).2 in
  (∀ k, k ≠ key → unordered_map.find k self' = unordered_map.find k self)
  ∧ unordered_map.find key (unordered_map.insert key value' self').2 = Some value'
  ∧ unordered_map.size (unordered_map.insert key value' self').2
    = unordered_map.size self'
  ∧ unordered_map.insert_pair (key, value') self' = (false, self')
  ∧ (∀ (Args : Type) (construct : Args → Key * Value) args,
       (construct args).1 = key →
       (unordered_map.emplace construct args self').1.1 = false
       ∧ (unordered_map.emplace construct args self').2 = self').
Proof.
  rewrite !insert_container; simpl. split_and!.
  - intros k Hne. rewrite !find_container; simpl. by apply lookup_insert_ne.
  - rewrite insert_container, find_container; simpl. apply lookup_insert_eq.
  - rewrite insert_container, !size_container; simpl.
    rewrite insert_insert_eq, !map_size_insert. by destruct (_ !! key).
  - rewrite insert_pair_container; simpl. by rewrite lookup_insert_eq.
  - intros Args construct args Hkey. rewrite emplace_container; simpl.
    by rewrite Hkey, lookup_insert_eq.
Qed.

(** X3. [erase(key)] right after [insert(key, value)] returns 1, leaves
    [key] absent and every other key as it was before the insert; when [key]
    was absent before the insert, the map is the one before the insert. *)
Theorem insert_then_erase key value self :
  let '(removed, self') :=
    unordered_map.erase key (unordered_map.insert key value self).2 in
  removed = 1
  ∧ unordered_map.find key self' = None
  ∧ (∀ k, k ≠ key → unordered_map.find k self' = unordered_map.find k self)
  ∧ unordered_map.size self' + unordered_map.count key self
    = unordered_map.size self
  ∧ (unordered_map.find key self = None → self' = self).
Proof.
  rewrite insert_container, erase_container; simpl.
  rewrite lookup_insert_eq, delete_insert_eq.
  rewrite !size_container, count_container, !find_container; simpl.
  split_and!; [done|apply lookup_delete_eq| | |].
  - intros k Hne. rewrite !find_container; simpl. by apply lookup_delete_ne.
  - rewrite map_size_delete. destruct (_ !! key) eqn:Hkey; simpl; [|lia].
    assert (size (container_base._internal_container self) ≠ 0); [|lia].
    intros Hz%map_size_empty_inv. by rewrite Hz, lookup_empty in Hkey.
  - intros Hkey. destruct self as [m]; simpl in *. by rewrite delete_id.
Qed.

(** X4. Two [insert(key, value)] calls on different keys give the same map
    in either order. *)
Theorem inserts_commute k1 v1 k2 v2 self (Hne : k1 ≠ k2) :
  (unordered_map.insert k2 v2 (unordered_map.insert k1 v1 self).2).2
  = (unordered_map.insert k1 v1 (unordered_map.insert k2 v2 self).2).2.
Proof.
  rewrite !insert_container; simpl. f_equal. by apply insert_insert_ne.
Qed.


(** X6. A snapshot loses nothing: inserting its pairs one after another
    into an empty map, with [insert(key, value)] or with [insert(pair)],
    gives the map the snapshot was taken from. *)
Theorem snapshot_rebuilds_map self :
  fold_left (λ map p, (unordered_map.insert p.1 p.2 map).2)
    (unordered_map.snapshot self) (container_base.mk ∅) = self
  ∧ fold_left (λ map p, (unordered_map.insert_pair p map).2)
      (unordered_map.snapshot self) (container_base.mk ∅) = self.
Proof.
  assert (Hunion : ∀ (l : list (Key * Value)) (acc : gmap Key Value),
            NoDup l.*1 → (∀ k, k ∈ l.*1 → acc !! k = None) →
            fold_left (λ map p, (unordered_map.insert p.1 p.2 map).2) l
              (container_base.mk acc)
            = container_base.mk (list_to_map l ∪ acc)
            ∧ fold_left (λ map p, (unordered_map.insert_pair p map).2) l
                (container_base.mk acc)
              = container_base.mk (list_to_map l ∪ acc)).
  { induction l as [|[k v] l IH]; intros acc Hnodup Hfresh; simpl.
    { by rewrite (left_id_L ∅ (∪)). }
    apply NoDup_cons in Hnodup as [Hk Hnodup].
    rewrite insert_container, insert_pair_container; simpl.
    rewrite Hfresh by left; simpl.
    assert (Hl : (list_to_map l : gmap Key Value) !! k = None)
      by by apply not_elem_of_list_to_map_1.
    rewrite <-insert_union_l, insert_union_r by done.
    apply IH; [done|]. intros k' Hk'. rewrite lookup_insert_ne.
    - apply Hfresh. by right.
    - by intros ->. }
  pose proof (snapshot_container self) as Hperm.
  destruct (Hunion (unordered_map.snapshot self) ∅) as [Hins Hpair].
  - rewrite Hperm. apply NoDup_fst_map_to_list.
  - intros k _. apply lookup_empty.
  - rewrite Hins, Hpair, (right_id_L ∅ (∪)).
    rewrite (list_to_map_proper _ (map_to_list (container_base._internal_container self)))
      by (by rewrite ?Hperm; try apply NoDup_fst_map_to_list).
    rewrite list_to_map_to_list. by destruct self.
Qed.

(** X7. After any sequence of [insert(key, value)] calls, [find(k)] returns
    the value of the last call that names [k], and a key no call names is as
    before; on a map that was empty, [size()] is the number of different
    keys named. *)
Theorem inserts_last_wins (l : list (Key * Value)) self :
  let final := fold_left (λ map p, (unordered_map.insert p.1 p.2 map).2) l self in
  (∀ l1 k v l2, l = l1 ++ (k, v) :: l2 → k ∉ l2.*1 →
     unordered_map.find k final = Some v)
  ∧ (∀ k, k ∉ l.*1 → unordered_map.find k final = unordered_map.find k self)
  ∧ (unordered_map.empty self = true →
     unordered_map.size final = length (remove_dups l.*1)).
Proof.
  cbv zeta. split_and!.
  - intros l1 k v l2 -> Hk.
    rewrite find_container, inserts_container, fold_left_app; simpl.
    rewrite fold_insert_other by done. apply lookup_insert_eq.
  - intros k Hk. rewrite !find_container, inserts_container.
    by apply fold_insert_other.
  - intros Hempty. rewrite size_container, inserts_container.
    assert (Hself : container_base._internal_container self = ∅).
    { by apply empty_container. }
    rewrite Hself, <-size_dom, fold_insert_dom, dom_empty_L, (left_id_L ∅ (∪)).
    rewrite <-(size_list_to_set (C:=gset Key) (remove_dups l.*1))
      by apply NoDup_remove_dups.
    f_equal. apply set_eq. intros k.
    by rewrite !elem_of_list_to_set, elem_of_remove_dups.
Qed.
End map_laws.

(** ** Any number of threads on one guarded container *)
Section threads_laws.
Context {ContainerT R : Type}.
Implicit Types (c : ContainerT) (t : threads.thread ContainerT R).
Implicit Types (s : threads.state ContainerT R).
Implicit Types (programs : list (list (threads.call ContainerT R))).

Lemma run_finished_serial c programs schedule s :
  threads.run schedule (threads.start c programs) = Some s →
  threads.finished s = true →
  ∃ order,
    threads.serial order
      (container_base.mk c, threads.threads (threads.start c programs))
    = Some (container_base.mk (threads._internal_container s), threads.threads s).
Proof.
  intros Hrun Hfin.
  destruct (run_settled _ _ _ Hrun (start_agrees c programs)) as [_ [order Horder]].
  exists order.
  rewrite (settled_outside _ (start_outside c programs)) in Horder.
  by rewrite (settled_outside s) in Horder by by apply finished_outside.
Qed.

(** X8. The lock discipline of [execute_shared] and [execute_exclusive]
    never blocks every thread: in any state the threads can reach, unless
    each of them has returned from its last call, some thread can take its
    next step. *)
Theorem some_thread_can_step c programs schedule s
    (Hrun : threads.run schedule (threads.start c programs) = Some s)
    (Hbusy : threads.finished s = false) :
  ∃ i s', threads.step i s = Some s'.
Proof.
  destruct (run_settled _ _ _ Hrun (start_agrees c programs)) as [Hs _].
  by apply progress.
Qed.

Lemma step_reading c0 programs i s s' :
  threads.step i s = Some s' →
  threads._internal_container s = c0 →
  Forall2 (λ t calls, reading t ∧ returns_on c0 t = run_call c0 <$> calls)
    (threads.threads s) programs →
  threads._internal_container s' = c0
  ∧ Forall2 (λ t calls, reading t ∧ returns_on c0 t = run_call c0 <$> calls)
      (threads.threads s') programs.
Proof.
  intros Hstep Hc Hall. destruct s as [c mu ts]; simpl in *. subst c.
  unfold threads.step in Hstep; simpl in Hstep.
  destruct (ts !! i) as [t|] eqn:Hi; simpl in Hstep; [|done].
  destruct (Forall2_lookup_l _ _ _ _ _ Hall Hi) as (calls & Hcalls & [Hno Hsh] & Hret).
  assert (Hkeep : ∀ t', reading t' → returns_on c0 t' = returns_on c0 t →
            Forall2 (λ t calls, reading t ∧ returns_on c0 t = run_call c0 <$> calls)
              (<[i := t']> ts) programs).
  { intros t' Hreading Hsame. rewrite <-(list_insert_id programs i calls) by done.
    apply Forall2_insert; [done|]. split; [done|]. by rewrite Hsame. }
  destruct t as [td pos ret]; unfold returns_on in *; simpl in *.
  destruct pos as [|[r|next]|[r|upd next]]; simpl in Hstep.
  - destruct td as [|[func|func] rest]; [done| |done].
    destruct (threads.writer mu); [done|]. injection Hstep as <-; simpl.
    split; [done|]. apply Hkeep; [|done]. split; [done|]. by simpl in Hsh.
  - injection Hstep as <-; simpl. split; [done|].
    apply Hkeep; [by split|]. simpl. by rewrite <-!app_assoc.
  - injection Hstep as <-; simpl. split; [done|]. by apply Hkeep.
  - by destruct (Hno (threads.x_return r)).
  - by destruct (Hno (threads.x_access upd next)).
Qed.

Lemma run_reading c0 programs schedule s0 s :
  threads.run schedule s0 = Some s →
  threads._internal_container s0 = c0 →
  Forall2 (λ t calls, reading t ∧ returns_on c0 t = run_call c0 <$> calls)
    (threads.threads s0) programs →
  threads._internal_container s = c0
  ∧ Forall2 (λ t calls, reading t ∧ returns_on c0 t = run_call c0 <$> calls)
      (threads.threads s) programs.
Proof.
  revert s0. induction schedule as [|i schedule IH]; intros s0; simpl.
  - by intros [= ->].
  - destruct (threads.step i s0) as [s1|] eqn:Hstep; simpl; [|done].
    intros Hrun Hc Hall.
    destruct (step_reading _ _ _ _ _ Hstep Hc Hall) as [Hc1 Hall1].
    exact (IH s1 Hrun Hc1 Hall1).
Qed.

Lemma start_reading c programs :
  forallb (forallb is_shared) programs = true →
  Forall2 (λ t calls, reading t ∧ returns_on c t = run_call c <$> calls)
    (threads.threads (threads.start c programs)) programs.
Proof.
  intros Hshared. simpl.
  apply Forall2_fmap_l, Forall_Forall2_diag, Forall_forall.
  intros calls Hin. split; [split; [done|]|done]. simpl.
  rewrite forallb_forall in Hshared. by apply Hshared, list_elem_of_In.
Qed.

Lemma finished_returns c programs s :
  Forall2 (λ t calls, reading t ∧ returns_on c t = run_call c <$> calls)
    (threads.threads s) programs →
  threads.finished s = true →
  threads.threads s
  = (λ calls, threads.mk_thread [] threads.outside (run_call c <$> calls))
    <$> programs.
Proof.
  intros Hall Hfin.
  apply list_eq_Forall2, Forall2_fmap_r.
  unfold threads.finished in Hfin. rewrite forallb_forall in Hfin.
  apply Forall2_same_length_lookup_2; [by apply Forall2_length in Hall|].
  intros i t calls Ht Hcalls.
  destruct (Forall2_lookup_lr _ _ _ _ _ _ Hall Ht Hcalls) as [_ Hret].
  assert (Hin : In t (threads.threads s))
    by (apply list_elem_of_In, list_elem_of_lookup; eauto).
  apply Hfin in Hin. destruct t as [td pos ret]; unfold returns_on in Hret; simpl in *.
  destruct pos; try done. destruct td; [|done]. simpl in Hret.
  rewrite !app_nil_r in Hret. by subst.
Qed.

(** X9. Threads that only call [execute_shared] never change the container,
    whatever the interleaving, and each of their calls returns what its
    callable returns on the unchanged container: once all have returned,
    every thread holds the results of its calls in the order it made them. *)
Theorem readers_leave_container c programs schedule s
    (Hshared : forallb (forallb is_shared) programs = true)
    (Hrun : threads.run schedule (threads.start c programs) = Some s) :
  threads._internal_container s = c
  ∧ (threads.finished s = true →
     threads.threads s
     = (λ calls, threads.mk_thread [] threads.outside (run_call c <$> calls))
       <$> programs).
Proof.
  destruct (run_reading c programs schedule _ s Hrun eq_refl
              (start_reading c programs Hshared)) as [Hc Hall].
  split; [done|]. intros Hfin. by apply finished_returns.
Qed.
End threads_laws.

(** ** The workers of the test suite under every interleaving *)
Section workers_laws.
Context {Key : Type} `{Countable Key} {Value : Type} `{Inhabited Value}.
Implicit Types (self : unordered_map.t Key Value) (o : workers.op Key Value).
Implicit Types (ops sigma : list (workers.op Key Value)).
Implicit Types (ws : list (list (workers.op Key Value))).

Lemma mk_container self :
  container_base.mk (container_base._internal_container self) = self.
Proof. by destruct self. Qed.

Lemma serial_call_worker i self self' ts ts' ws :
  threads.serial_call i (self, ts) = Some (self', ts') →
  Forall2 workers.has_left ts ws →
  ∃ o rest, ws !! i = Some (o :: rest)
            ∧ self' = workers.perform self o
            ∧ Forall2 workers.has_left ts' (<[i := rest]> ws).
Proof.
  intros Hcall Hall. unfold threads.serial_call in Hcall; simpl in Hcall.
  destruct (ts !! i) as [t|] eqn:Hi; simpl in Hcall; [|done].
  destruct (Forall2_lookup_l _ _ _ _ _ Hall Hi) as (ops & Hops & Hat & Htodo).
  rewrite Hat, Htodo in Hcall. destruct ops as [|o rest]; [done|].
  exists o, rest. split; [done|].
  assert (Hleft : ∀ r, Forall2 workers.has_left
            (<[i := threads.mk_thread (workers.to_call <$> rest) threads.outside r]> ts)
            (<[i := rest]> ws)).
  { intros r. by apply Forall2_insert. }
  rewrite fmap_cons in Hcall.
  destruct o as [key value|key|key|key];
    unfold workers.to_call, map_threads.insert, map_threads.find,
      map_threads.erase, container_base.execute_exclusive in Hcall;
    cbv beta iota in Hcall.
  - rewrite insert_func_run in Hcall. injection Hcall as <- <-.
    split; [|done]. simpl. by rewrite mk_container, mk_container.
  - by injection Hcall as <- <-.
  - rewrite erase_func_run in Hcall. injection Hcall as <- <-.
    split; [|done]. simpl. by rewrite mk_container, mk_container.
  - by injection Hcall as <- <-.
Qed.

Lemma join_pop ws i o rest :
  ws !! i = Some (o :: rest) → o :: mjoin (<[i := rest]> ws) ≡ₚ mjoin ws.
Proof.
  intros (l1 & l2 & -> & ->)%list_elem_of_split_length.
  rewrite <-(Nat.add_0_r (length l1)), insert_app_r; simpl.
  rewrite !join_app; simpl. apply Permutation_middle.
Qed.

Lemma serial_workers order self ts ws self' ts' :
  threads.serial order (self, ts) = Some (self', ts') →
  Forall2 workers.has_left ts ws →
  ∃ sigma ws', Forall2 workers.has_left ts' ws'
               ∧ self' = fold_left workers.perform sigma self
               ∧ sigma ++ mjoin ws' ≡ₚ mjoin ws.
Proof.
  revert self ts ws. induction order as [|i order IH]; intros self ts ws; simpl.
  - intros [= <- <-] Hall. by exists [], ws.
  - destruct (threads.serial_call i (self, ts)) as [[self1 ts1]|] eqn:Hcall;
      simpl; [|done].
    intros Hrest Hall.
    destruct (serial_call_worker _ _ _ _ _ _ Hcall Hall) as (o & rest & Hi & -> & Hall1).
    destruct (IH _ _ _ Hrest Hall1) as (sigma & ws' & Hall' & -> & Hperm).
    exists (o :: sigma), ws'. split_and!; [done..|].
    simpl. by rewrite Hperm, join_pop.
Qed.

Lemma nothing_left ts ws :
  Forall2 workers.has_left ts ws →
  Forall (λ t, threads.todo t = []) ts → mjoin ws = [].
Proof.
  induction 1 as [|t ops ts ws [_ Htodo] _ IH]; [done|].
  intros [Ht Hts]%Forall_cons. rewrite Htodo in Ht.
  apply fmap_nil_inv in Ht as ->. simpl. by apply IH.
Qed.

(** At the end the map is what a single caller gets by making all calls of
    all workers one after another, in some order. *)
Lemma finished_workers (m : gmap Key Value) ws schedule s :
  threads.run schedule (threads.start m (workers.programs ws)) = Some s →
  threads.finished s = true →
  ∃ sigma, sigma ≡ₚ mjoin ws
           ∧ container_base.mk (threads._internal_container s)
             = fold_left workers.perform sigma (container_base.mk m).
Proof.
  intros Hrun Hfin.
  destruct (run_finished_serial _ _ _ _ Hrun Hfin) as [order Horder].
  assert (Hstart : Forall2 workers.has_left
            (threads.threads (threads.start m (workers.programs ws))) ws).
  { simpl. unfold workers.programs.
    by apply Forall2_fmap_l, Forall2_fmap_l, Forall_Forall2_diag, Forall_true. }
  destruct (serial_workers _ _ _ _ _ _ Horder Hstart) as (sigma & ws' & Hall & Hfold & Hperm).
  exists sigma. split; [|done].
  rewrite (nothing_left _ _ Hall), app_nil_r in Hperm; [done|].
  unfold threads.finished in Hfin. rewrite forallb_forall in Hfin.
  apply Forall_forall. intros t Ht%list_elem_of_In%Hfin.
  destruct (threads.at_ t); try done. by destruct (threads.todo t).
Qed.

Lemma fold_provenance sigma self k v :
  unordered_map.find k (fold_left workers.perform sigma self) = Some v →
  unordered_map.find k self = Some v ∨ workers.do_insert k v ∈ sigma.
Proof.
  revert self. induction sigma as [|o sigma IH]; intros self; simpl; [by left|].
  intros [Hfind|Hin]%IH; [|right; by right].
  destruct o as [key value|key|key|key]; simpl in Hfind; [| by left | | by left].
  - rewrite insert_container, find_container in Hfind; simpl in Hfind.
    apply lookup_insert_Some in Hfind as [[-> ->]|[_ Hfind]].
    + right. left.
    + left. by rewrite find_container.
  - rewrite erase_container in Hfind. rewrite !find_container in *.
    destruct (_ !! key); simpl in Hfind; [|by left].
    apply lookup_delete_Some in Hfind as [_ Hfind]. by left.
Qed.

Lemma fold_untouched sigma self k :
  (∀ o, o ∈ sigma → o ≠ workers.do_erase k ∧ ∀ v, o ≠ workers.do_insert k v) →
  unordered_map.find k (fold_left workers.perform sigma self)
  = unordered_map.find k self.
Proof.
  revert self. induction sigma as [|o sigma IH]; intros self Hno; simpl; [done|].
  rewrite IH by (intros o' Ho'; apply Hno; by right).
  destruct (Hno o) as [Herase Hinsert]; [by left|].
  destruct o as [key value|key|key|key]; simpl; [|done| |done].
  - rewrite insert_container, !find_container; simpl.
    apply lookup_insert_ne. intros ->. by destruct (Hinsert value).
  - rewrite erase_container, !find_container.
    destruct (_ !! key) eqn:Hkey; simpl; [|done].
    apply lookup_delete_ne. by intros ->.
Qed.

Lemma fold_inserted (f : Key → Value) sigma self k :
  Forall (λ o, ∃ key, o = workers.do_insert key (f key)) sigma →
  workers.do_insert k (f k) ∈ sigma →
  unordered_map.find k (fold_left workers.perform sigma self) = Some (f k).
Proof.
  intros Hall Hin. apply list_elem_of_split in Hin as (l1 & l2 & ->).
  rewrite fold_left_app; simpl.
  apply Forall_app in Hall as [_ [_ Hl2]%Forall_cons].
  generalize (fold_left workers.perform l1 self). intros self1.
  assert (Hnow : unordered_map.find k (unordered_map.insert k (f k) self1).2 = Some (f k)).
  { rewrite insert_container, find_container; simpl. apply lookup_insert_eq. }
  revert Hnow. generalize ((unordered_map.insert k (f k) self1).2).
  induction Hl2 as [|o l2 [key ->] _ IH]; intros self2 Hnow; simpl; [done|].
  apply IH. rewrite insert_container, find_container; simpl.
  destruct (decide (key = k)) as [->|Hne].
  - apply lookup_insert_eq.
  - rewrite lookup_insert_ne by done. by rewrite <-find_container.
Qed.

(** X10. Workers that insert, look up and erase, under any interleaving:
    once all have returned, every entry of the map was either there at the
    start or is the key and value of some worker's [insert] call; and a key
    that no [insert] and no [erase] call names is as it was at the start. *)
Theorem no_entry_out_of_thin_air (m : gmap Key Value) ws schedule s
    (Hrun : threads.run schedule (threads.start m (workers.programs ws)) = Some s)
    (Hfin : threads.finished s = true) :
  let map := container_base.mk (threads._internal_container s) in
  (∀ k v, unordered_map.find k map = Some v →
     m !! k = Some v ∨ ∃ ops, ops ∈ ws ∧ workers.do_insert k v ∈ ops)
  ∧ (∀ k, (∀ ops o, ops ∈ ws → o ∈ ops →
             o ≠ workers.do_erase k ∧ ∀ v, o ≠ workers.do_insert k v) →
       unordered_map.find k map = m !! k).
Proof.
  destruct (finished_workers _ _ _ _ Hrun Hfin) as (sigma & Hperm & Hfold).
  cbv zeta. rewrite Hfold. split.
  - intros k v [Hstart|Hin]%fold_provenance;
      [left; by rewrite find_container in Hstart|right].
    rewrite Hperm in Hin. apply list_elem_of_join in Hin as (ops & Ho & Hops). eauto.
  - intros k Hno. rewrite fold_untouched; [by rewrite find_container|].
    intros o Ho. rewrite Hperm in Ho.
    apply list_elem_of_join in Ho as (ops & Ho & Hops). eauto.
Qed.
End workers_laws.

(** ** The multi-threaded tests under every interleaving *)
Section test_suite.
Context {order : std_unordered_map.traversal nat nat}.
Implicit Types (s : threads.state (gmap nat nat) (map_threads.result nat)).

Lemma insert_worker_calls num_threads items_per_thread (o : workers.op nat nat) :
  o ∈ mjoin (workers.test_multi_threaded_insert num_threads items_per_thread)
  ↔ ∃ key, key < num_threads * items_per_thread ∧ o = workers.do_insert key (key * 10).
Proof.
  unfold workers.test_multi_threaded_insert, workers.insert_worker.
  rewrite list_elem_of_join. split.
  - intros (ops & Ho & (i & -> & Hi%elem_of_seq)%list_elem_of_fmap).
    apply list_elem_of_fmap in Ho as (j & -> & Hj%elem_of_seq).
    exists (i * items_per_thread + j). split; [nia|done].
  - intros (key & Hkey & ->).
    assert (items_per_thread ≠ 0) by (intros ->; lia).
    pose proof (Nat.div_mod_eq key items_per_thread) as Hdiv.
    pose proof (Nat.mod_upper_bound key items_per_thread) as Hmod.
    assert (key / items_per_thread < num_threads)
      by (apply Nat.Div0.div_lt_upper_bound; lia).
    exists (workers.insert_worker (key / items_per_thread * items_per_thread)
              items_per_thread).
    split.
    + apply list_elem_of_fmap. exists (key mod items_per_thread).
      split; [|apply elem_of_seq; lia].
      simpl. f_equal; lia.
    + apply list_elem_of_fmap. exists (key / items_per_thread).
      split; [done|apply elem_of_seq; lia].
Qed.

(** X11. [test_multi_threaded_insert] for any number of threads and of items
    per thread, the values within [int], and any interleaving: once
    all workers have returned, [size()] is the number of threads times the
    items per thread, every key below that maps to ten times itself, and no
    other key is present. *)
Theorem concurrent_bulk_insert num_threads items_per_thread schedule s
    (Hint : workers.fits_int (num_threads * items_per_thread * 10) = true)
    (Hrun : threads.run schedule
              (threads.start ∅
                 (workers.programs
                    (workers.test_multi_threaded_insert num_threads items_per_thread)))
            = Some s)
    (Hfin : threads.finished s = true) :
  let map : unordered_map.t nat nat :=
    container_base.mk (threads._internal_container s) in
  unordered_map.size map = num_threads * items_per_thread
  ∧ ∀ key, unordered_map.find key map
           = if decide (key < num_threads * items_per_thread)
             then Some (key * 10) else None.
Proof.
  destruct (finished_workers _ _ _ _ Hrun Hfin) as (sigma & Hperm & Hfold).
  cbv zeta.
  assert (Hfind : ∀ key,
            unordered_map.find key
              (container_base.mk (threads._internal_container s))
            = if decide (key < num_threads * items_per_thread)
              then Some (key * 10) else None).
  { intros key. rewrite Hfold. case_decide as Hkey.
    - apply (fold_inserted (λ k, k * 10)).
      + apply Forall_forall. intros o Ho. rewrite Hperm in Ho.
        apply insert_worker_calls in Ho as (k & _ & ->). by exists k.
      + rewrite Hperm. apply insert_worker_calls. by exists key.
    - rewrite fold_untouched; [done|].
      intros o Ho. rewrite Hperm in Ho.
      apply insert_worker_calls in Ho as (k & Hk & ->).
      split; [done|]. intros v [= ->]. lia. }
  split; [|done].
  rewrite size_container; simpl. rewrite <-size_dom.
  rewrite <-(size_set_seq (C:=gset nat) 0 (num_threads * items_per_thread)).
  f_equal. apply set_eq. intros key.
  rewrite elem_of_dom, elem_of_set_seq.
  specialize (Hfind key). rewrite find_container in Hfind; simpl in Hfind.
  rewrite Hfind. case_decide; split; try done; try lia.
Qed.

(** X12. [test_multi_threaded_mixed_ops] for any values of [rand()], the
    values written within [int], and any interleaving: once all workers have returned, every entry of the map has
    a key below four times the operations of some thread and, as value, ten
    times the key plus the id of that thread. *)
Theorem mixed_ops_entries (rands : list (list (nat * nat))) schedule s
    (Hint : forallb id
              (imap (λ thread_id rs, workers.fits_int (length rs * 40 + thread_id))
                 rands) = true)
    (Hrun : threads.run schedule
              (threads.start ∅
                 (workers.programs (workers.test_multi_threaded_mixed_ops rands)))
            = Some s)
    (Hfin : threads.finished s = true) :
  ∀ key value,
    unordered_map.find key (container_base.mk (threads._internal_container s))
    = Some value →
    ∃ thread_id rs, rands !! thread_id = Some rs
                    ∧ key < length rs * 4
                    ∧ value = key * 10 + thread_id.
Proof.
  destruct (finished_workers _ _ _ _ Hrun Hfin) as (sigma & Hperm & Hfold).
  intros key value Hfind. rewrite Hfold in Hfind.
  apply fold_provenance in Hfind as [Hstart|Hin]; [done|].
  rewrite Hperm in Hin. apply list_elem_of_join in Hin as (ops & Ho & Hops).
  apply elem_of_lookup_imap in Hops as (thread_id & rs & -> & Hrs).
  exists thread_id, rs. split; [done|].
  apply list_elem_of_fmap in Ho as ([r1 r2] & Ho & Hr).
  cbv beta zeta in Ho. change ((r1, r2).1) with r1 in Ho.
  change ((r1, r2).2) with r2 in Ho.
  assert (length rs ≠ 0) by (destruct rs; [by apply elem_of_nil in Hr|done]).
  pose proof (Nat.mod_upper_bound r1 (length rs * 4)).
  destruct (r2 mod 3) as [|[|]]; try done.
  injection Ho as Hk Hv. subst key value. split; [lia|done].
Qed.

(** X13. [test_multi_threaded_execute] for any values of [rand()], the
    values written within [int], and any interleaving: once all workers have returned, every entry of the map was
    written by one of the threads that call [execute_exclusive]: its key is
    below twice the operations of that thread and its value is a hundred
    times the key plus the id of that thread. *)
Theorem execute_entries (writers readers : list (list nat)) schedule s
    (Hint : forallb id
              (imap (λ thread_id rs, workers.fits_int (length rs * 200 + thread_id))
                 writers) = true)
    (Hrun : threads.run schedule
              (threads.start ∅
                 (workers.programs
                    (workers.test_multi_threaded_execute writers readers)))
            = Some s)
    (Hfin : threads.finished s = true) :
  ∀ key value,
    unordered_map.find key (container_base.mk (threads._internal_container s))
    = Some value →
    ∃ thread_id rs, writers !! thread_id = Some rs
                    ∧ key < length rs * 2
                    ∧ value = key * 100 + thread_id.
Proof.
  destruct (finished_workers _ _ _ _ Hrun Hfin) as (sigma & Hperm & Hfold).
  intros key value Hfind. rewrite Hfold in Hfind.
  apply fold_provenance in Hfind as [Hstart|Hin]; [done|].
  rewrite Hperm in Hin. apply list_elem_of_join in Hin as (ops & Ho & Hops).
  unfold workers.test_multi_threaded_execute in Hops.
  apply elem_of_app in Hops as [Hops|Hops];
    apply elem_of_lookup_imap in Hops as (i & rs & -> & Hrs);
    apply list_elem_of_fmap in Ho as (r & Ho & Hr); simpl in Ho; [|done].
  exists i, rs. split; [done|].
  assert (length rs ≠ 0) by (destruct rs; [by apply elem_of_nil in Hr|done]).
  pose proof (Nat.mod_upper_bound r (length rs * 2)).
  injection Ho as -> ->. split; [lia|done].
Qed.

Lemma join_alter_push (thread_keys : list (list nat)) j key :
  j < length thread_keys →
  mjoin (alter (λ keys, keys ++ [key]) j thread_keys) ≡ₚ key :: mjoin thread_keys.
Proof.
  revert j. induction thread_keys as [|keys thread_keys IH]; intros j Hj; simpl in Hj.
  - lia.
  - destruct j as [|j]; csimpl.
    + rewrite <-app_assoc; simpl. symmetry. apply Permutation_middle.
    + rewrite IH by lia. symmetry. apply Permutation_middle.
Qed.

Lemma distribute_all num_threads (keys : list nat) :
  num_threads ≠ 0 → mjoin (workers.distribute num_threads keys) ≡ₚ keys.
Proof.
  intros Hn. unfold workers.distribute.
  assert (Hgen : ∀ (l : list (nat * nat)) (thread_keys : list (list nat)),
            length thread_keys = num_threads →
            mjoin (fold_left
                     (λ thread_keys ik,
                        alter (λ keys, keys ++ [ik.2]) (ik.1 mod num_threads) thread_keys)
                     l thread_keys)
            ≡ₚ mjoin thread_keys ++ l.*2).
  { induction l as [|[i key] l IH]; intros thread_keys Hlen; simpl.
    - by rewrite app_nil_r.
    - rewrite IH by (by rewrite length_alter).
      rewrite join_alter_push by (rewrite Hlen; by apply Nat.mod_upper_bound).
      simpl. by rewrite <-Permutation_middle. }
  rewrite Hgen by apply length_replicate.
  assert (Hnil : mjoin (replicate num_threads ([] : list nat)) = []).
  { clear. induction num_threads; simpl; [done|]. done. }
  rewrite Hnil; simpl.
  assert (Himap : ∀ (l : list nat) (g : nat → nat → nat * nat),
            (∀ i x, (g i x).2 = x) → (imap g l).*2 = l).
  { induction l as [|x l IH]; intros g Hg; csimpl; [done|].
    rewrite Hg. f_equal. apply IH. intros i y. apply Hg. }
  by rewrite Himap.
Qed.

Lemma populated_find num_items key :
  unordered_map.find key (workers.populated num_items)
  = if decide (key < num_items) then Some (key * 10) else None.
Proof.
  unfold workers.populated.
  assert (Hcalls : ∀ o, o ∈ workers.insert_worker 0 num_items
            ↔ ∃ k, k < num_items ∧ o = workers.do_insert k (k * 10)).
  { intros o. unfold workers.insert_worker. rewrite list_elem_of_fmap. split.
    - intros (i & -> & Hi%elem_of_seq). exists i. split; [lia|done].
    - intros (k & Hk & ->). exists k. split; [done|apply elem_of_seq; lia]. }
  case_decide as Hkey.
  - apply (fold_inserted (λ k, k * 10)).
    + apply Forall_forall. intros o (k & _ & ->)%Hcalls. by exists k.
    + apply Hcalls. by exists key.
  - rewrite fold_untouched; [done|].
    intros o (k & Hk & ->)%Hcalls. split; [done|]. intros v [= ->]. lia.
Qed.

Lemma found_in_range num_items start len :
  sum_list_with
    (λ key, workers.found (map_threads.r_optional
                             (unordered_map.find key (workers.populated num_items))))
    (seq start len)
  = length (filter (λ key, key < num_items) (seq start len)).
Proof.
  revert start. induction len as [|len IH]; intros start; simpl; [done|].
  rewrite IH, populated_find, filter_cons. by case_decide.
Qed.

Lemma filter_below_none n start len :
  n ≤ start → filter (λ key, key < n) (seq start len) = [].
Proof.
  revert start. induction len as [|len IH]; intros start Hstart; [done|].
  simpl seq. rewrite filter_cons_False by lia. apply IH. lia.
Qed.

(** X14. [test_multi_threaded_read] for any number of items, the values
    within [int], any positive number of threads and any interleaving: once all readers have returned,
    the lookups that found a value are as many as the items the map was
    populated with, and the map is the populated map. *)
Theorem concurrent_reads_find_all num_items num_threads schedule s
    (Hthreads : num_threads ≠ 0)
    (Hint : workers.fits_int ((num_items + 100) * 10) = true)
    (Hrun : threads.run schedule
              (threads.start
                 (container_base._internal_container (workers.populated num_items))
                 (workers.programs
                    (workers.test_multi_threaded_read num_items num_threads)))
            = Some s)
    (Hfin : threads.finished s = true) :
  workers.found_count s = num_items
  ∧ container_base.mk (threads._internal_container s) = workers.populated num_items.
Proof.
  assert (Hshared : forallb (forallb is_shared)
                      (workers.programs
                         (workers.test_multi_threaded_read num_items num_threads))
                    = true).
  { unfold workers.programs, workers.test_multi_threaded_read, workers.read_worker.
    apply forallb_forall. intros calls Hcalls%list_elem_of_In.
    apply list_elem_of_fmap in Hcalls as (ops & -> & Hops).
    apply list_elem_of_fmap in Hops as (keys & -> & _).
    apply forallb_forall. intros call Hcall%list_elem_of_In.
    apply list_elem_of_fmap in Hcall as (o & -> & Ho).
    by apply list_elem_of_fmap in Ho as (key & -> & _). }
  destruct (run_reading
              (container_base._internal_container (workers.populated num_items))
              _ _ _ _ Hrun eq_refl (start_reading _ _ Hshared)) as [Hc Hall].
  pose proof (finished_returns _ _ _ Hall) as Hts.
  split; [|by rewrite Hc, mk_container].
  unfold workers.found_count. rewrite (Hts Hfin).
  unfold workers.programs, workers.test_multi_threaded_read, workers.read_worker.
  assert (Hsum : ∀ thread_keys : list (list nat),
            sum_list_with
              (λ t : threads.thread (gmap nat nat) (map_threads.result nat),
                 sum_list_with workers.found (threads.returned t))
              ((λ calls, threads.mk_thread [] threads.outside
                           (run_call
                              (container_base._internal_container
                                 (workers.populated num_items)) <$> calls))
               <$> ((λ ops, workers.to_call <$> ops)
                    <$> (fmap workers.do_find <$> thread_keys)))
            = sum_list_with
                (λ key, workers.found
                          (map_threads.r_optional
                             (unordered_map.find key (workers.populated num_items))))
                (mjoin thread_keys)).
  { assert (Hone : ∀ keys : list nat,
              sum_list_with workers.found
                (run_call
                   (container_base._internal_container (workers.populated num_items))
                 <$> (workers.to_call <$> (workers.do_find <$> keys)))
              = sum_list_with
                  (λ key, workers.found
                            (map_threads.r_optional
                               (unordered_map.find key (workers.populated num_items))))
                  keys).
    { induction keys as [|key keys IH]; [done|].
      rewrite !fmap_cons. simpl sum_list_with. by rewrite IH. }
    induction thread_keys as [|keys thread_keys IH]; [done|].
    rewrite !fmap_cons. simpl sum_list_with. simpl mjoin.
    by rewrite sum_list_with_app, IH, Hone. }
  rewrite Hsum, distribute_all by done.
  rewrite sum_list_with_app, !found_in_range.
  rewrite filter_keep_all, length_seq
    by (apply Forall_forall; intros key Hkey%elem_of_seq; lia).
  assert (Hnone : filter (λ key, key < num_items) (seq num_items 100) = [])
    by by apply filter_below_none.
  rewrite Hnone. simpl. lia.
Qed.
End test_suite.

(** ** Move assignment *)
Section move_assignment_laws.
Context {ContainerT : Type} (moved_from : ContainerT → ContainerT).
Implicit Types (objs : list (move_assignment.object ContainerT)).
Implicit Types (ca cb : ContainerT).

Local Ltac lookup_objects Ha Hb :=
  repeat (first [ rewrite Ha | rewrite Hb
                | rewrite decide_False by lia
                | rewrite list_lookup_insert_ne by lia
                | rewrite list_lookup_insert_eq by (rewrite ?length_insert; lia) ];
          simpl).

(** X15. [a = std::move(b)] run by one thread while both mutexes are free:
    for [a] and [b] different objects it returns after six steps, [a] holds
    what [b] held, [b] is left as [std::move] leaves a container, both
    mutexes are free again and no other object has changed; for [a] and [b]
    the same object it returns at once, without taking a lock and without
    changing anything. *)
Theorem move_assignment_alone objs a b ca cb
    (Ha : objs !! a = Some (move_assignment.mk_object ca false))
    (Hb : objs !! b = Some (move_assignment.mk_object cb false)) :
  (a ≠ b →
   move_assignment.run moved_from [0; 0; 0; 0; 0; 0]
     (move_assignment.mk_state objs [move_assignment.assign a b])
   = Some (move_assignment.mk_state
             (<[b := move_assignment.mk_object (moved_from cb) false]>
                (<[a := move_assignment.mk_object cb false]> objs))
             [move_assignment.mk_thread a b move_assignment.returned]))
  ∧ (a = b →
     move_assignment.run moved_from [0]
       (move_assignment.mk_state objs [move_assignment.assign a b])
     = Some (move_assignment.mk_state objs
               [move_assignment.mk_thread a b move_assignment.returned])).
Proof.
  assert (Hla : a < length objs) by by apply lookup_lt_Some in Ha.
  assert (Hlb : b < length objs) by by apply lookup_lt_Some in Hb.
  split.
  - intros Hne. simpl. unfold move_assignment.step; simpl.
    lookup_objects Ha Hb.
    do 2 f_equal.
    apply list_eq. intros j.
    destruct (decide (j = a)) as [->|Hja]; [|destruct (decide (j = b)) as [->|Hjb]];
      by lookup_objects Ha Hb.
  - intros ->. simpl. unfold move_assignment.step; simpl.
    by rewrite decide_True.
Qed.

(** X16. Two threads that move-assign two different objects to each other,
    [a = std::move(b)] and [b = std::move(a)]: once each has locked its own
    object, neither can take another step and neither has returned; the
    contents of both objects are still the ones before the calls. *)
Theorem crossing_move_assignments_block objs a b ca cb
    (Hne : a ≠ b)
    (Ha : objs !! a = Some (move_assignment.mk_object ca false))
    (Hb : objs !! b = Some (move_assignment.mk_object cb false)) :
  let blocked :=
    move_assignment.mk_state
      (<[b := move_assignment.mk_object cb true]>
         (<[a := move_assignment.mk_object ca true]> objs))
      [move_assignment.mk_thread a b move_assignment.at_other_lock;
       move_assignment.mk_thread b a move_assignment.at_other_lock] in
  move_assignment.run moved_from [0; 1; 0; 1]
    (move_assignment.mk_state objs
       [move_assignment.assign a b; move_assignment.assign b a])
  = Some blocked
  ∧ ∀ i, move_assignment.step moved_from i blocked = None.
Proof.
  assert (Hla : a < length objs) by by apply lookup_lt_Some in Ha.
  assert (Hlb : b < length objs) by by apply lookup_lt_Some in Hb.
  split.
  - simpl. unfold move_assignment.step; simpl.
    by lookup_objects Ha Hb.
  - intros [|[|i]]; unfold move_assignment.step; simpl; [| |done];
      by lookup_objects Ha Hb.
Qed.
End move_assignment_laws.

Section move_witnesses.
Lemma move_assignment_alone_witness :
  let objs : list (move_assignment.object (gmap nat nat)) :=
    [ move_assignment.mk_object {[ 1 := 10 ]} false;
      move_assignment.mk_object {[ 2 := 20 ]} false ] in
  objs !! 0 = Some (move_assignment.mk_object {[ 1 := 10 ]} false)
  ∧ objs !! 1 = Some (move_assignment.mk_object {[ 2 := 20 ]} false)
  ∧ (0 ≠ 1 →
     move_assignment.run (λ _, ∅) [0; 0; 0; 0; 0; 0]
       (move_assignment.mk_state objs [move_assignment.assign 0 1])
     = Some (move_assignment.mk_state
               (<[1 := move_assignment.mk_object ∅ false]>
                  (<[0 := move_assignment.mk_object {[ 2 := 20 ]} false]> objs))
               [move_assignment.mk_thread 0 1 move_assignment.returned]))
  ∧ (0 = 1 →
     move_assignment.run (λ _, ∅) [0]
       (move_assignment.mk_state objs [move_assignment.assign 0 1])
     = Some (move_assignment.mk_state objs
               [move_assignment.mk_thread 0 1 move_assignment.returned])).
Proof.
  intros objs.
  assert (Ha : objs !! 0 = Some (move_assignment.mk_object {[ 1 := 10 ]} false))
    by reflexivity.
  assert (Hb : objs !! 1 = Some (move_assignment.mk_object {[ 2 := 20 ]} false))
    by reflexivity.
  split; [exact Ha|]. split; [exact Hb|].
  exact (move_assignment_alone (λ _, ∅) objs 0 1 {[ 1 := 10 ]} {[ 2 := 20 ]} Ha Hb).
Defined.

Lemma crossing_move_assignments_block_witness :
  let objs : list (move_assignment.object (gmap nat nat)) :=
    [ move_assignment.mk_object {[ 1 := 10 ]} false;
      move_assignment.mk_object {[ 2 := 20 ]} false ] in
  let blocked :=
    move_assignment.mk_state
      (<[1 := move_assignment.mk_object {[ 2 := 20 ]} true]>
         (<[0 := move_assignment.mk_object {[ 1 := 10 ]} true]> objs))
      [move_assignment.mk_thread 0 1 move_assignment.at_other_lock;
       move_assignment.mk_thread 1 0 move_assignment.at_other_lock] in
  0 ≠ 1
  ∧ objs !! 0 = Some (move_assignment.mk_object {[ 1 := 10 ]} false)
  ∧ objs !! 1 = Some (move_assignment.mk_object {[ 2 := 20 ]} false)
  ∧ move_assignment.run (λ _, ∅) [0; 1; 0; 1]
      (move_assignment.mk_state objs
         [move_assignment.assign 0 1; move_assignment.assign 1 0])
    = Some blocked
  ∧ ∀ i, move_assignment.step (λ _, ∅) i blocked = None.
Proof.
  intros objs blocked.
  assert (Hne : 0 ≠ 1) by lia.
  assert (Ha : objs !! 0 = Some (move_assignment.mk_object {[ 1 := 10 ]} false))
    by reflexivity.
  assert (Hb : objs !! 1 = Some (move_assignment.mk_object {[ 2 := 20 ]} false))
    by reflexivity.
  split; [exact Hne|]. split; [exact Ha|]. split; [exact Hb|].
  exact (crossing_move_assignments_block (λ _, ∅) objs 0 1
           {[ 1 := 10 ]} {[ 2 := 20 ]} Hne Ha Hb).
Defined.
End move_witnesses.

(** ** The properties above on concrete maps and runs *)
Section further_witnesses.
Local Existing Instance std_unordered_map.listed.

Lemma inserts_commute_witness :
  1 ≠ 2
  ∧ (unordered_map.insert 2 "two"%string
       (unordered_map.insert 1 "one"%string (container_base.mk ∅)).2).2
    = (unordered_map.insert 1 "one"%string
         (unordered_map.insert 2 "two"%string (container_base.mk ∅)).2).2.
Proof.
  assert (Hne : 1 ≠ 2) by lia.
  split; [exact Hne|].
  exact (inserts_commute 1 "one"%string 2 "two"%string (container_base.mk ∅) Hne).
Defined.

(** The first of the three threads has taken the exclusive lock. *)
Lemma some_thread_can_step_witness :
  let s : threads.state (gmap nat nat) (map_threads.result nat) :=
    threads.mk_state ∅ (threads.mk_mutex true 0)
      [ threads.mk_thread [map_threads.insert 1 10]
          (threads.in_exclusive (map_threads.insert_func 0 0)) [];
        threads.mk_thread [map_threads.insert 100 1000; map_threads.find 0]
          threads.outside [];
        threads.mk_thread [map_threads.find 100] threads.outside [] ] in
  threads.run [0] (threads.start ∅ three_threads) = Some s
  ∧ threads.finished s = false
  ∧ ∃ i s', threads.step i s = Some s'.
Proof.
  intros s.
  assert (Hrun : threads.run [0] (threads.start ∅ three_threads) = Some s)
    by (vm_compute; reflexivity).
  assert (Hbusy : threads.finished s = false) by reflexivity.
  split; [exact Hrun|]. split; [exact Hbusy|].
  exact (some_thread_can_step ∅ three_threads [0] s Hrun Hbusy).
Defined.

(** Two readers whose lookups overlap. *)
Lemma readers_leave_container_witness :
  let m : gmap nat nat := {[ 0 := 0 ]} in
  let programs : list (list (threads.call (gmap nat nat) (map_threads.result nat))) :=
    [ [map_threads.find 0; map_threads.find 1]; [map_threads.find 0] ] in
  let schedule := [0; 1; 0; 1; 0; 1; 0; 0; 0] in
  let s : threads.state (gmap nat nat) (map_threads.result nat) :=
    threads.mk_state m (threads.mk_mutex false 0)
      [ threads.mk_thread [] threads.outside
          [map_threads.r_optional (Some 0); map_threads.r_optional None];
        threads.mk_thread [] threads.outside [map_threads.r_optional (Some 0)] ] in
  forallb (forallb is_shared) programs = true
  ∧ threads.run schedule (threads.start m programs) = Some s
  ∧ threads._internal_container s = m
  ∧ (threads.finished s = true →
     threads.threads s
     = (λ calls, threads.mk_thread [] threads.outside (run_call m <$> calls))
       <$> programs).
Proof.
  intros m programs schedule s.
  assert (Hshared : forallb (forallb is_shared) programs = true) by reflexivity.
  assert (Hrun : threads.run schedule (threads.start m programs) = Some s)
    by (vm_compute; reflexivity).
  split; [exact Hshared|]. split; [exact Hrun|].
  exact (readers_leave_container m programs schedule s Hshared Hrun).
Defined.

(** A worker that inserts and erases beside one that looks up. *)
Lemma no_entry_out_of_thin_air_witness :
  let m : gmap nat nat := list_to_map [(5, 50); (7, 70)] in
  let ws : list (list (workers.op nat nat)) :=
    [ [workers.do_insert 0 1; workers.do_erase 5]; [workers.do_find 0] ] in
  let schedule := [0; 0; 0; 0; 0; 0; 0; 1; 1; 1] in
  let s : threads.state (gmap nat nat) (map_threads.result nat) :=
    threads.mk_state (list_to_map [(0, 1); (7, 70)]) (threads.mk_mutex false 0)
      [ threads.mk_thread [] threads.outside
          [map_threads.r_void; map_threads.r_size 1];
        threads.mk_thread [] threads.outside [map_threads.r_optional (Some 1)] ] in
  threads.run schedule (threads.start m (workers.programs ws)) = Some s
  ∧ threads.finished s = true
  ∧ (let map := container_base.mk (threads._internal_container s) in
     (∀ k v, unordered_map.find k map = Some v →
        m !! k = Some v ∨ ∃ ops, ops ∈ ws ∧ workers.do_insert k v ∈ ops)
     ∧ (∀ k, (∀ ops o, ops ∈ ws → o ∈ ops →
                o ≠ workers.do_erase k ∧ ∀ v, o ≠ workers.do_insert k v) →
          unordered_map.find k map = m !! k)).
Proof.
  intros m ws schedule s.
  assert (Hrun : threads.run schedule (threads.start m (workers.programs ws)) = Some s)
    by (vm_compute; reflexivity).
  assert (Hfin : threads.finished s = true) by reflexivity.
  split; [exact Hrun|]. split; [exact Hfin|].
  exact (no_entry_out_of_thin_air m ws schedule s Hrun Hfin).
Defined.

(** Two threads of two items each, taking turns call by call. *)
Lemma concurrent_bulk_insert_witness :
  let schedule := [0; 0; 0; 0; 1; 1; 1; 1; 0; 0; 0; 0; 1; 1; 1; 1] in
  let s : threads.state (gmap nat nat) (map_threads.result nat) :=
    threads.mk_state (list_to_map [(0, 0); (1, 10); (2, 20); (3, 30)])
      (threads.mk_mutex false 0)
      [ threads.mk_thread [] threads.outside [map_threads.r_void; map_threads.r_void];
        threads.mk_thread [] threads.outside [map_threads.r_void; map_threads.r_void] ] in
  workers.fits_int (2 * 2 * 10) = true
  ∧ threads.run schedule
      (threads.start ∅ (workers.programs (workers.test_multi_threaded_insert 2 2)))
    = Some s
  ∧ threads.finished s = true
  ∧ (let map : unordered_map.t nat nat :=
       container_base.mk (threads._internal_container s) in
     unordered_map.size map = 2 * 2
     ∧ ∀ key, unordered_map.find key map
              = if decide (key < 2 * 2) then Some (key * 10) else None).
Proof.
  intros schedule s.
  assert (Hint : workers.fits_int (2 * 2 * 10) = true) by reflexivity.
  assert (Hrun : threads.run schedule
                   (threads.start ∅
                      (workers.programs (workers.test_multi_threaded_insert 2 2)))
                 = Some s) by (vm_compute; reflexivity).
  assert (Hfin : threads.finished s = true) by reflexivity.
  split; [exact Hint|]. split; [exact Hrun|]. split; [exact Hfin|].
  exact (concurrent_bulk_insert 2 2 schedule s Hint Hrun Hfin).
Defined.

(** The first thread inserts key 0 and erases key 1, the second looks up
    key 3. *)
Lemma mixed_ops_entries_witness :
  let rands : list (list (nat * nat)) := [ [(0, 0); (1, 2)]; [(3, 1)] ] in
  let schedule := [0; 0; 0; 0; 1; 1; 1; 0; 0; 0] in
  let s : threads.state (gmap nat nat) (map_threads.result nat) :=
    threads.mk_state {[ 0 := 0 ]} (threads.mk_mutex false 0)
      [ threads.mk_thread [] threads.outside
          [map_threads.r_void; map_threads.r_size 0];
        threads.mk_thread [] threads.outside [map_threads.r_optional None] ] in
  forallb id
    (imap (λ thread_id rs, workers.fits_int (length rs * 40 + thread_id)) rands)
  = true
  ∧ threads.run schedule
      (threads.start ∅ (workers.programs (workers.test_multi_threaded_mixed_ops rands)))
    = Some s
  ∧ threads.finished s = true
  ∧ ∀ key value,
      unordered_map.find key (container_base.mk (threads._internal_container s))
      = Some value →
      ∃ thread_id rs, rands !! thread_id = Some rs
                      ∧ key < length rs * 4
                      ∧ value = key * 10 + thread_id.
Proof.
  intros rands schedule s.
  assert (Hrun : threads.run schedule
                   (threads.start ∅
                      (workers.programs (workers.test_multi_threaded_mixed_ops rands)))
                 = Some s) by (vm_compute; reflexivity).
  assert (Hfin : threads.finished s = true) by reflexivity.
  assert (Hint : forallb id
                   (imap (λ thread_id rs,
                            workers.fits_int (length rs * 40 + thread_id)) rands)
                 = true) by reflexivity.
  split; [exact Hint|]. split; [exact Hrun|]. split; [exact Hfin|].
  exact (mixed_ops_entries rands schedule s Hint Hrun Hfin).
Defined.

(** One writer that writes key 1, one reader that counts key 1. *)
Lemma execute_entries_witness :
  let writers : list (list nat) := [ [5] ] in
  let readers : list (list nat) := [ [3] ] in
  let schedule := [0; 0; 0; 0; 1; 1; 1] in
  let s : threads.state (gmap nat nat) (map_threads.result nat) :=
    threads.mk_state {[ 1 := 100 ]} (threads.mk_mutex false 0)
      [ threads.mk_thread [] threads.outside [map_threads.r_void];
        threads.mk_thread [] threads.outside [map_threads.r_void] ] in
  forallb id
    (imap (λ thread_id rs, workers.fits_int (length rs * 200 + thread_id)) writers)
  = true
  ∧ threads.run schedule
      (threads.start ∅
         (workers.programs (workers.test_multi_threaded_execute writers readers)))
    = Some s
  ∧ threads.finished s = true
  ∧ ∀ key value,
      unordered_map.find key (container_base.mk (threads._internal_container s))
      = Some value →
      ∃ thread_id rs, writers !! thread_id = Some rs
                      ∧ key < length rs * 2
                      ∧ value = key * 100 + thread_id.
Proof.
  intros writers readers schedule s.
  assert (Hrun : threads.run schedule
                   (threads.start ∅
                      (workers.programs
                         (workers.test_multi_threaded_execute writers readers)))
                 = Some s) by (vm_compute; reflexivity).
  assert (Hfin : threads.finished s = true) by reflexivity.
  assert (Hint : forallb id
                   (imap (λ thread_id rs,
                            workers.fits_int (length rs * 200 + thread_id)) writers)
                 = true) by reflexivity.
  split; [exact Hint|]. split; [exact Hrun|]. split; [exact Hfin|].
  exact (execute_entries writers readers schedule s Hint Hrun Hfin).
Defined.

(** One item, two readers: the first looks up the 51 keys at the even
    places, then the second the 50 keys at the odd places. *)
Lemma concurrent_reads_find_all_witness :
  let schedule := replicate 153 0 ++ replicate 150 1 in
  let s : threads.state (gmap nat nat) (map_threads.result nat) :=
    threads.mk_state {[ 0 := 0 ]} (threads.mk_mutex false 0)
      [ threads.mk_thread [] threads.outside
          (map_threads.r_optional (Some 0) :: replicate 50 (map_threads.r_optional None));
        threads.mk_thread [] threads.outside
          (replicate 50 (map_threads.r_optional None)) ] in
  2 ≠ 0
  ∧ workers.fits_int ((1 + 100) * 10) = true
  ∧ threads.run schedule
      (threads.start (container_base._internal_container (workers.populated 1))
         (workers.programs (workers.test_multi_threaded_read 1 2)))
    = Some s
  ∧ threads.finished s = true
  ∧ workers.found_count s = 1
  ∧ container_base.mk (threads._internal_container s) = workers.populated 1.
Proof.
  intros schedule s.
  assert (Hthreads : 2 ≠ 0) by lia.
  assert (Hrun : threads.run schedule
                   (threads.start
                      (container_base._internal_container (workers.populated 1))
                      (workers.programs (workers.test_multi_threaded_read 1 2)))
                 = Some s) by (vm_compute; reflexivity).
  assert (Hfin : threads.finished s = true) by reflexivity.
  assert (Hint : workers.fits_int ((1 + 100) * 10) = true) by reflexivity.
  split; [exact Hthreads|]. split; [exact Hint|]. split; [exact Hrun|].
  split; [exact Hfin|].
  exact (concurrent_reads_find_all 1 2 schedule s Hthreads Hint Hrun Hfin).
Defined.
End further_witnesses.
